(** * Game of Life (GameOfLife/Main.cpp): a shallow embedding and its properties

    The program keeps a [Grid<Cell>] of [(fieldWidth + 2) x (fieldHeight + 2)]
    cells, a [fieldWidth x fieldHeight] image, and mutates the grid from a
    frame loop through [FillRandom], [grid.fill], [Update] and mouse edits;
    [CopyToImage] projects the grid to the image.

    Conventions of the embedding:
    - [size_t] values are [nat]; [size_t] additions and subtractions wrap
      modulo [2^64] ([size_add], [size_sub]);
    - the storage of a [Grid] or an [Image] is the row-major array the
      library keeps; [grid[y][x]] is element [y * width + x] of it;
    - an access outside the storage is undefined behaviour in C++; the
      embedding makes it an error: every operation returns [option], and
      [None] stands for such an access;
    - the random number generator is explicit state ([Rng]);
    - the bounds [grid.height() - 2] and [grid.width() - 2] of the nested
      loops wrap for a grid of fewer than 2 rows or columns; the properties
      below are about grids of [(W + 2) x (H + 2)] cells, as [Main] builds. *)

From Stdlib Require Import ZArith Lia.
From stdpp Require Import base option list.

Local Open Scope nat_scope.

(** ** Machine integers *)

(** [2^64], the number of values of [size_t]. *)
Definition size_max : Z := 18446744073709551616.

(** Conversion of an integer to [size_t]. *)
Definition size_wrap (z : Z) : nat := Z.to_nat (z mod size_max).

Definition size_add (a b : nat) : nat := size_wrap (Z.of_nat a + Z.of_nat b).

Definition size_sub (a b : nat) : nat := size_wrap (Z.of_nat a - Z.of_nat b).

(** ** Loops *)

(** A [for] loop over the elements of [l] whose body may fail. *)
Fixpoint foldM {A B : Type} (f : B → A → option A) (l : list B) (a : A) : option A :=
  match l with
  | [] => Some a
  | k :: l' => a' ← f k a; foldM f l' a'
  end.

(** Siv3D's [Range(b, e)]: [b, b+1, ..., e], empty when [e < b]. *)
Definition Range (b e : nat) : list nat := seq b (S e - b).

(** Siv3D's [step(n)]: [0, 1, ..., n-1]. *)
Definition step (n : nat) : list nat := seq 0 n.

(** The pairs [(y, x)] that two nested loops visit, [y] over [ys] in the
    outer loop and [x] over [xs] in the inner one, in the order of the visits. *)
Definition coords (ys xs : list nat) : list (nat * nat) :=
  y ← ys; pair y <$> xs.

(** ** Cells and grids *)

(** [struct Cell { bool previous : 1; bool current : 1; }] *)
Record Cell : Type := mkCell { previous : bool; current : bool }.

(** Siv3D's [Grid<Cell>]: the two dimensions and the row-major storage. *)
Record Grid : Type := mkGrid { width : nat; height : nat; data : list Cell }.

(** The invariant of the [Grid] class: the storage holds [width * height]
    elements, and the dimensions are [size_t] values. *)
Definition Grid_wf (gr : Grid) : Prop :=
  length (data gr) = height gr * width gr ∧
  (Z.of_nat (width gr) < size_max)%Z ∧ (Z.of_nat (height gr) < size_max)%Z.

(** [Grid<Cell> grid(w, h, c)] *)
Definition Grid_new (w h : nat) (c : Cell) : Grid := mkGrid w h (replicate (h * w) c).

(** [grid.fill(c)] *)
Definition Grid_fill (gr : Grid) (c : Cell) : Grid :=
  mkGrid (width gr) (height gr) ((λ _, c) <$> data gr).

(** Reading [grid[y][x]]. *)
Definition grid_get (gr : Grid) (y x : nat) : option Cell :=
  data gr !! (y * width gr + x).

(** [grid[y][x] = c] *)
Definition grid_set (gr : Grid) (y x : nat) (c : Cell) : option Grid :=
  let i := y * width gr + x in
  if decide (i < length (data gr))
  then Some (mkGrid (width gr) (height gr) (<[i := c]> (data gr)))
  else None.

(** [grid[y][x].current = v]: the other bit of the cell is kept. *)
Definition grid_set_current (gr : Grid) (y x : nat) (v : bool) : option Grid :=
  c ← grid_get gr y x;
  grid_set gr y x (mkCell (previous c) v).

(** ** The random source *)

(** The generator behind [RandomBool]: the sequence of booleans it will
    return and the number of them already returned. *)
Record Rng : Type := mkRng { draws : nat → bool; drawn : nat }.

(** [RandomBool(0.5)]: the next boolean, and the generator advanced. *)
Definition RandomBool (r : Rng) : bool * Rng :=
  (draws r (drawn r), mkRng (draws r) (S (drawn r))).

(** ** FillRandom *)

(** The loop body [grid[y][x] = { 0, RandomBool(0.5) }]. *)
Definition FillRandom_cell (y x : nat) (s : Grid * Rng) : option (Grid * Rng) :=
  let (b, r') := RandomBool s.2 in
  gr' ← grid_set s.1 y x (mkCell false b);
  Some (gr', r').

(** [FillRandom(grid)], from the grid and the generator to both after the
    call: the fill of the whole storage, then the two nested loops over
    [Range(1, grid.height() - 2)] and [Range(1, grid.width() - 2)]. *)
Definition FillRandom (s : Grid * Rng) : option (Grid * Rng) :=
  let gr := Grid_fill s.1 (mkCell false false) in
  foldM (λ y s', foldM (λ x, FillRandom_cell y x)
                       (Range 1 (size_sub (width s'.1) 2)) s')
        (Range 1 (size_sub (height gr) 2)) (gr, s.2).

(** ** Update *)

(** The first loop's body: [cell.previous = cell.current]. *)
Definition snapshot (c : Cell) : Cell := mkCell (current c) (current c).

(** The second loop's body at [(y, x)]: the state of the cell, the sum of
    the eight neighbours' [previous] bits, and the write of [current]. The
    loop variables are [size_t], so is the arithmetic on them. *)
Definition Update_cell (y x : nat) (gr : Grid) : option Grid :=
  c ← grid_get gr y x;
  let centerCell : Z := Z.b2z (previous c) in
  let numLivingCell : Z := 0%Z in
  n ← grid_get gr (size_sub y 1) (size_sub x 1);
  let numLivingCell := (numLivingCell + Z.b2z (previous n))%Z in
  n ← grid_get gr (size_sub y 1) x;
  let numLivingCell := (numLivingCell + Z.b2z (previous n))%Z in
  n ← grid_get gr (size_sub y 1) (size_add x 1);
  let numLivingCell := (numLivingCell + Z.b2z (previous n))%Z in
  n ← grid_get gr y (size_sub x 1);
  let numLivingCell := (numLivingCell + Z.b2z (previous n))%Z in
  n ← grid_get gr y (size_add x 1);
  let numLivingCell := (numLivingCell + Z.b2z (previous n))%Z in
  n ← grid_get gr (size_add y 1) (size_sub x 1);
  let numLivingCell := (numLivingCell + Z.b2z (previous n))%Z in
  n ← grid_get gr (size_add y 1) x;
  let numLivingCell := (numLivingCell + Z.b2z (previous n))%Z in
  n ← grid_get gr (size_add y 1) (size_add x 1);
  let numLivingCell := (numLivingCell + Z.b2z (previous n))%Z in
  grid_set_current gr y x
    (((centerCell =? 0)%Z && (numLivingCell =? 3)%Z)
     || ((centerCell =? 1)%Z && ((numLivingCell =? 2)%Z || (numLivingCell =? 3)%Z))).

(** [Update(grid)]: the loop over all cells, then the two nested loops
    over the cells off the border. *)
Definition Update (gr : Grid) : option Grid :=
  let gr := mkGrid (width gr) (height gr) (snapshot <$> data gr) in
  foldM (λ y gr', foldM (λ x, Update_cell y x)
                       (Range 1 (size_sub (width gr') 2)) gr')
        (Range 1 (size_sub (height gr) 2)) gr.

(** ** Images and CopyToImage *)

(** Siv3D's [Color]: four 8-bit channels. *)
Record Color : Type := mkColor { r : Z; g : Z; b : Z; a : Z }.

(** [Color(0, 255, 0)]; the alpha channel defaults to 255. *)
Definition colorLivingCell : Color := mkColor 0 255 0 255.

(** [Palette::Black] *)
Definition colorDeadCell : Color := mkColor 0 0 0 255.

(** Siv3D's [Image]: the two dimensions and the row-major pixels. *)
Record Image : Type := mkImage { image_width : nat; image_height : nat; pixels : list Color }.

Definition Image_wf (img : Image) : Prop :=
  length (pixels img) = image_height img * image_width img.

(** [Image image(w, h, c)] *)
Definition Image_new (w h : nat) (c : Color) : Image := mkImage w h (replicate (h * w) c).

(** Reading [image[y][x]]. *)
Definition image_get (img : Image) (y x : nat) : option Color :=
  pixels img !! (y * image_width img + x).

(** [image[y][x] = c] *)
Definition image_set (img : Image) (y x : nat) (c : Color) : option Image :=
  let i := y * image_width img + x in
  if decide (i < length (pixels img))
  then Some (mkImage (image_width img) (image_height img) (<[i := c]> (pixels img)))
  else None.

(** The loop body
    [image[y][x] = grid[y + 1][x + 1].current ? colorLivingCell : colorDeadCell].
    [y] and [x] are [int32] values below the image's dimensions, so [y + 1]
    and [x + 1] do not overflow. *)
Definition CopyToImage_pixel (gr : Grid) (y x : nat) (img : Image) : option Image :=
  c ← grid_get gr (y + 1) (x + 1);
  image_set img y x (if current c then colorLivingCell else colorDeadCell).

(** [CopyToImage(grid, image)]: the grid is read only; the loops run over
    the image's dimensions. *)
Definition CopyToImage (gr : Grid) (img : Image) : option Image :=
  foldM (λ y img', foldM (λ x, CopyToImage_pixel gr y x)
                         (step (image_width img')) img')
        (step (image_height img)) img.

(** ** The frame loop of Main *)

Definition fieldWidth : nat := 60.
Definition fieldHeight : nat := 60.

(** Siv3D's [Point]: a pair of [int32], [(x, y)]. *)
Definition Point : Type := Z * Z.

(** [p / s]: both coordinates divided, with C++'s truncating division. *)
Definition Point_div (p : Point) (s : Z) : Point := (p.1 ÷ s, p.2 ÷ s)%Z.

(** [p + q]. In [Main] the left operand is a quotient by 10 and the right
    one is [(1, 1)], so the [int32] sum does not overflow. *)
Definition Point_add (p q : Point) : Point := (p.1 + q.1, p.2 + q.2)%Z.

(** [Rect(x, y, size).mouseOver()] with the cursor at [p]: the square
    contains its left and top edges and not its right and bottom ones. *)
Definition Rect_mouseOver (x y size : Z) (p : Point) : bool :=
  ((x <=? p.1) && (p.1 <? x + size) && (y <=? p.2) && (p.2 <? y + size))%Z.

(** [grid[pos].current = v]: the element has index [pos.y * width + pos.x],
    computed in [size_t]. *)
Definition grid_set_current_at (gr : Grid) (pos : Point) (v : bool) : option Grid :=
  let i := size_wrap (pos.2 * Z.of_nat (width gr) + pos.1) in
  c ← data gr !! i;
  Some (mkGrid (width gr) (height gr) (<[i := mkCell (previous c) v]> (data gr))).

(** What one frame reads from the host: the three buttons that change the
    grid (the third one joined with the auto-play timer, line 85), the
    cursor and the two mouse buttons. *)
Record Input : Type := mkInput {
  buttonRandom : bool;
  buttonClear : bool;
  buttonUpdate : bool;
  cursorPos : Point;
  mouseL : bool;
  mouseR : bool
}.

(** The variables of [Main] the frame loop changes. *)
Record State : Type := mkState {
  grid : Grid;
  image : Image;
  rng : Rng;
  doesUpdate : bool
}.

(** [Main] before the first frame. *)
Definition Main_init (r0 : Rng) : State :=
  mkState (Grid_new (fieldWidth + 2) (fieldHeight + 2) (mkCell false false))
          (Image_new fieldWidth fieldHeight colorDeadCell) r0 false.

(** Lines 62-66. *)
Definition frame_random (inp : Input) (s : State) : option State :=
  if buttonRandom inp then
    s' ← FillRandom (grid s, rng s);
    Some (mkState s'.1 (image s) s'.2 true)
  else Some s.

(** Lines 69-73. *)
Definition frame_clear (inp : Input) (s : State) : option State :=
  if buttonClear inp then
    Some (mkState (Grid_fill (grid s) (mkCell false false)) (image s) (rng s) true)
  else Some s.

(** Lines 85-90. *)
Definition frame_update (inp : Input) (s : State) : option State :=
  if buttonUpdate inp then
    gr' ← Update (grid s);
    Some (mkState gr' (image s) (rng s) true)
  else Some s.

(** Lines 96-110. *)
Definition frame_edit (inp : Input) (s : State) : option State :=
  if Rect_mouseOver 0 0 599 (cursorPos inp) then
    let target := Point_add (Point_div (cursorPos inp) 10) (1, 1)%Z in
    if mouseL inp then
      gr' ← grid_set_current_at (grid s) target true;
      Some (mkState gr' (image s) (rng s) true)
    else if mouseR inp then
      gr' ← grid_set_current_at (grid s) target false;
      Some (mkState gr' (image s) (rng s) true)
    else Some s
  else Some s.

(** Lines 113-118. *)
Definition frame_render (s : State) : option State :=
  if doesUpdate s then
    img ← CopyToImage (grid s) (image s);
    Some (mkState (grid s) img (rng s) false)
  else Some s.

(** One iteration of the [while (System::Update())] loop. *)
Definition Main_frame (inp : Input) (s : State) : option State :=
  s ← frame_random inp s;
  s ← frame_clear inp s;
  s ← frame_update inp s;
  s ← frame_edit inp s;
  frame_render s.

(** The loop over the frames' inputs. *)
Definition Main_loop (inps : list Input) (s : State) : option State :=
  foldM Main_frame inps s.

(** ** Vocabulary of the specification *)

(** A cell of the grid's storage, by row [y] and column [x]. *)
Definition in_grid (gr : Grid) (y x : nat) : Prop := y < height gr ∧ x < width gr.

(** A logical cell of a grid with a [W x H] field: off the one-cell ring. *)
Definition logical (W H y x : nat) : Prop := 1 ≤ y ≤ H ∧ 1 ≤ x ≤ W.

(** A padding cell: a cell of the [(W+2) x (H+2)] storage on the ring. *)
Definition padding (W H y x : nat) : Prop :=
  y < H + 2 ∧ x < W + 2 ∧ ¬ logical W H y x.

(** Every padding cell has both bits false. *)
Definition padding_dead (W H : nat) (gr : Grid) : Prop :=
  ∀ y x, padding W H y x → grid_get gr y x = Some (mkCell false false).

(** The [current] bit at [(y, x)], the state of the generation a step reads. *)
Definition alive (gr : Grid) (y x : nat) : bool :=
  from_option current false (grid_get gr y x).

(** The number of live cells among the 8 neighbours of [(y, x)], [1 ≤ y, x]. *)
Definition neighborCount (gr : Grid) (y x : nat) : nat :=
  Nat.b2n (alive gr (y - 1) (x - 1)) + Nat.b2n (alive gr (y - 1) x)
  + Nat.b2n (alive gr (y - 1) (x + 1))
  + Nat.b2n (alive gr y (x - 1)) + Nat.b2n (alive gr y (x + 1))
  + Nat.b2n (alive gr (y + 1) (x - 1)) + Nat.b2n (alive gr (y + 1) x)
  + Nat.b2n (alive gr (y + 1) (x + 1)).

(** The transition rule: the next state of a cell from its state and the
    number of its live neighbours. *)
Definition rule (center : bool) (n : nat) : bool :=
  (negb center && (n =? 3)) || (center && ((n =? 2) || (n =? 3))).

(** The state of [Update]'s second loop after the cells of [done]: the
    [previous] bits hold the input's generation, the visited cells hold the
    next one and the others the input's. *)
Definition Update_inv (gi : Grid) (done : list (nat * nat)) (gr : Grid) : Prop :=
  width gr = width gi ∧ height gr = height gi ∧
  length (data gr) = length (data gi) ∧
  ∀ y x, in_grid gi y x →
    ∃ c, grid_get gr y x = Some c ∧ previous c = alive gi y x ∧
         current c = if decide ((y, x) ∈ done)
                     then rule (alive gi y x) (neighborCount gi y x)
                     else alive gi y x.

Global Instance logical_dec (W H y x : nat) : Decision (logical W H y x).
Proof. unfold logical. apply _. Defined.

(** The blinker whose row starts at the logical cell [(x, y)] (counted from
    0, so stored at row [y + 1] and column [x + 1]): the cells of its row
    and those of its column, by their row [r] and column [c] in the storage. *)
Definition blinker_horizontal (x y r c : nat) : Prop := r = y + 1 ∧ x + 1 ≤ c ≤ x + 3.

Definition blinker_vertical (x y r c : nat) : Prop := c = x + 2 ∧ y ≤ r ≤ y + 2.

Global Instance blinker_horizontal_dec (x y r c : nat) :
  Decision (blinker_horizontal x y r c).
Proof. unfold blinker_horizontal. apply _. Defined.

Global Instance blinker_vertical_dec (x y r c : nat) :
  Decision (blinker_vertical x y r c).
Proof. unfold blinker_vertical. apply _. Defined.

(** The state of [FillRandom]'s loops after the cells of [done], from the
    grid [gi] and the generator [rn]: the [k]-th visited cell holds the
    [k]-th boolean drawn, the others are dead. *)
Definition FillRandom_inv (gi : Grid) (rn : Rng) (done : list (nat * nat))
    (s : Grid * Rng) : Prop :=
  width s.1 = width gi ∧ height s.1 = height gi ∧
  length (data s.1) = length (data gi) ∧
  draws s.2 = draws rn ∧ drawn s.2 = drawn rn + length done ∧
  ∀ y x, in_grid gi y x →
    (∀ k, done !! k = Some (y, x) →
       grid_get s.1 y x = Some (mkCell false (draws rn (drawn rn + k)))) ∧
    ((y, x) ∉ done → grid_get s.1 y x = Some (mkCell false false)).

(** The number of the draw that [FillRandom] stores in the logical cell at
    row [y] and column [x] of a field [W] cells wide. *)
Definition draw_index (W y x : nat) : nat := (y - 1) * W + (x - 1).

(** The dead cell, [{ 0, 0 }]. *)
Definition dead : Cell := mkCell false false.

(** The colour of the grid cell that [CopyToImage] reads for the pixel at
    row [y] and column [x]: the cell at row [y + 1] and column [x + 1]. *)
Definition pixel_of (gr : Grid) (y x : nat) : Color :=
  if alive gr (y + 1) (x + 1) then colorLivingCell else colorDeadCell.

(** The state of [CopyToImage]'s loops after the pixels of [done], from
    the image [img0]. *)
Definition CopyToImage_inv (gr : Grid) (img0 : Image) (done : list (nat * nat))
    (img : Image) : Prop :=
  image_width img = image_width img0 ∧ image_height img = image_height img0 ∧
  length (pixels img) = length (pixels img0) ∧
  ∀ y x, y < image_height img0 → x < image_width img0 →
    image_get img y x = if decide ((y, x) ∈ done)
                        then Some (pixel_of gr y x)
                        else image_get img0 y x.

(** What the frame loop of [Main] keeps true of its variables. *)
Definition Main_inv (s : State) : Prop :=
  Grid_wf (grid s) ∧ width (grid s) = fieldWidth + 2
  ∧ height (grid s) = fieldHeight + 2
  ∧ padding_dead fieldWidth fieldHeight (grid s)
  ∧ Image_wf (image s) ∧ image_width (image s) = fieldWidth
  ∧ image_height (image s) = fieldHeight.

(** [n] applications of [Update]. *)
Fixpoint Update_iter (n : nat) (gr : Grid) : option Grid :=
  match n with
  | 0 => Some gr
  | S n' => gr' ← Update gr; Update_iter n' gr'
  end.

(** ** Concrete grids *)

(** The grid of [w x h] cells whose live cells are those of [live], given
    by row and column; every [previous] bit is false. *)
Definition grid_of_live (w h : nat) (live : list (nat * nat)) : Grid :=
  mkGrid w h ((λ p, mkCell false (bool_decide (p ∈ live))) <$> coords (seq 0 h) (seq 0 w)).

(** A [3 x 3] field with a row of three live cells in the middle. *)
Definition blinker_row : Grid := grid_of_live 5 5 [(2, 1); (2, 2); (2, 3)].

(** The same generation as [blinker_row] with other [previous] bits. *)
Definition blinker_row_stale : Grid :=
  mkGrid 5 5 ((λ c, mkCell true (current c)) <$> data blinker_row).

(** A [3 x 3] field with a row of three live cells on its top edge. *)
Definition blinker_top : Grid := grid_of_live 5 5 [(1, 1); (1, 2); (1, 3)].

(** A [1 x 1] field whose padding cell at the top left corner is alive. *)
Definition live_corner : Grid := grid_of_live 3 3 [(0, 0)].

(** A generator that returns [true], [false], [true], ... *)
Definition rng_alternating : Rng := mkRng Nat.even 0.

(** A [4 x 5] field whose only live cell is the logical cell [(3, 4)],
    stored at row 5 and column 4. *)
Definition single_cell : Grid := grid_of_live 6 7 [(5, 4)].

(** An image of one pixel. *)
Definition one_pixel : Image := Image_new 1 1 colorDeadCell.

(** ** Further vocabulary *)

(** The cell at row [y] and column [x]; the dead cell outside the storage. *)
Definition cell (gr : Grid) (y x : nat) : Cell := default dead (grid_get gr y x).

(** The grid of [w x h] cells whose cell at row [y] and column [x] is [f y x]. *)
Definition Grid_tabulate (w h : nat) (f : nat → nat → Cell) : Grid :=
  mkGrid w h ((λ p, f p.1 p.2) <$> coords (seq 0 h) (seq 0 w)).

(** The cells of the [2 x 2] block whose top left cell is the logical cell
    [(x, y)] (counted from 0), by their row [r] and column [c] in the storage. *)
Definition block (x y r c : nat) : Prop := y + 1 ≤ r ≤ y + 2 ∧ x + 1 ≤ c ≤ x + 2.

Global Instance block_dec (x y r c : nat) : Decision (block x y r c).
Proof. unfold block. apply _. Defined.

(** The logical cell [(x, y)] (counted from 0) alone. *)
Definition single (x y r c : nat) : Prop := r = y + 1 ∧ c = x + 1.

Global Instance single_dec (x y r c : nat) : Decision (single x y r c).
Proof. unfold single. apply _. Defined.

(** A [3 x 3] field with a block in its top left corner. *)
Definition block_corner : Grid := grid_of_live 5 5 [(1, 1); (1, 2); (2, 1); (2, 2)].

(** A [3 x 3] field with one live cell, in its bottom right corner. *)
Definition lonely_corner : Grid := grid_of_live 5 5 [(3, 3)].

(** The grid mirrored left to right, mirrored top to bottom, and transposed. *)
Definition flip_horizontal (gr : Grid) : Grid :=
  Grid_tabulate (width gr) (height gr) (λ y x, cell gr y (width gr - 1 - x)).

Definition flip_vertical (gr : Grid) : Grid :=
  Grid_tabulate (width gr) (height gr) (λ y x, cell gr (height gr - 1 - y) x).

Definition transpose (gr : Grid) : Grid :=
  Grid_tabulate (height gr) (width gr) (λ y x, cell gr x y).

(** A [4 x 3] field with an L-shaped generation, which no mirror image or
    transposition maps to itself. *)
Definition ell : Grid := grid_of_live 6 5 [(1, 1); (2, 1); (3, 1); (3, 2); (3, 4)].

(** The cell that [FillRandom] leaves at row [y] and column [x] of a grid
    with a [W x H] field, from the generator [rn]. *)
Definition random_cell (W H : nat) (rn : Rng) (y x : nat) : Cell :=
  if decide (logical W H y x)
  then mkCell false (draws rn (drawn rn + draw_index W y x))
  else dead.

(** The pixels of the [w x h] image that shows the grid [gr], row by row. *)
Definition projection (gr : Grid) (w h : nat) : list Color :=
  (λ p, pixel_of gr p.1 p.2) <$> coords (step h) (step w).

(** The image of [Main] shows the grid of [Main]. *)
Definition in_sync (s : State) : Prop :=
  pixels (image s) = projection (grid s) fieldWidth fieldHeight.

(** The same generation as [blinker_top] with a live cell on the border
    ring (row 0, column 4) and a stale [previous] bit everywhere. *)
Definition blinker_top_noisy : Grid :=
  mkGrid 5 5 ((λ c, mkCell true (current c)) <$> data (grid_of_live 5 5 [(0, 4); (1, 1); (1, 2); (1, 3)])).

(** [p * s]: both coordinates multiplied. In [Main] the left operand is a
    quotient by 10 and [s] is 10, so the [int32] products do not overflow. *)
Definition Point_mul (p : Point) (s : Z) : Point := (p.1 * s, p.2 * s)%Z.

(** Lines 136-140: the square drawn under the cursor, by its top left
    corner and its size, when the cursor is over the canvas. *)
Definition frame_highlight (inp : Input) : option (Point * Z) :=
  if Rect_mouseOver 0 0 599 (cursorPos inp)
  then Some (Point_mul (Point_div (cursorPos inp) 10) 10, 10%Z)
  else None.

(** A frame in which all three buttons are pressed and the mouse is idle. *)
Definition all_buttons : Input := mkInput true true true (700, 300)%Z false false.

(** Frames in which the left, then the right mouse button is held over the
    canvas. *)
Definition click_left : Input := mkInput false false false (598, 5)%Z true false.

Definition click_right : Input := mkInput false false false (37, 590)%Z false true.

(** * Properties *)

(** ** Machine integers on small values *)

Lemma size_wrap_small (z : Z) :
  (0 ≤ z < size_max)%Z → size_wrap z = Z.to_nat z.
Proof. intros Hz. unfold size_wrap. by rewrite Z.mod_small. Qed.

Lemma size_add_small (a b : nat) :
  (Z.of_nat (a + b) < size_max)%Z → size_add a b = a + b.
Proof. intros Hlt. unfold size_add. rewrite size_wrap_small; lia. Qed.

Lemma size_sub_small (a b : nat) :
  b ≤ a → (Z.of_nat a < size_max)%Z → size_sub a b = a - b.
Proof. intros Hle Hlt. unfold size_sub. rewrite size_wrap_small; lia. Qed.

(** ** Row-major indices *)

Lemma flat_lt (w h y x : nat) : y < h → x < w → y * w + x < h * w.
Proof. nia. Qed.

Lemma flat_inj (w y x y' x' : nat) :
  x < w → x' < w → y * w + x = y' * w + x' → y = y' ∧ x = x'.
Proof.
  intros Hx Hx' Heq. destruct (decide (y = y')) as [->|Hne]; [lia|].
  exfalso. destruct (Nat.lt_total y y') as [Hlt|[->|Hlt]]; [nia|done|nia].
Qed.

Lemma flat_ne (w y x y' x' : nat) :
  x < w → x' < w → (y, x) ≠ (y', x') → y * w + x ≠ y' * w + x'.
Proof.
  intros Hx Hx' Hne Heq. destruct (flat_inj w y x y' x' Hx Hx' Heq). congruence.
Qed.

(** ** Loops *)

Lemma foldM_app {A B} (f : B → A → option A) (l1 l2 : list B) (a : A) :
  foldM f (l1 ++ l2) a = foldM f l1 a ≫= foldM f l2.
Proof.
  revert a. induction l1 as [|k l1 IH]; intros a; simpl; [done|].
  destruct (f k a) as [a'|]; simpl; [apply IH | done].
Qed.

Lemma foldM_fmap {A B C} (h : C → B) (f : B → A → option A) (l : list C) (a : A) :
  foldM f (h <$> l) a = foldM (λ k, f (h k)) l a.
Proof.
  revert a. induction l as [|k l IH]; intros a; simpl; [done|].
  destruct (f (h k) a) as [a'|]; simpl; [apply IH | done].
Qed.

Lemma foldM_preserves {A B} (f : B → A → option A) (P : A → Prop) (l : list B) :
  (∀ k a a', f k a = Some a' → P a → P a') →
  ∀ a a', foldM f l a = Some a' → P a → P a'.
Proof.
  intros Hf. induction l as [|k l IH]; intros a a'; simpl.
  - by intros [= ->].
  - destruct (f k a) as [a1|] eqn:Hk; simpl; [|done].
    intros Hl Ha. eapply IH; [done|]. by eapply Hf.
Qed.

(** A loop invariant indexed by the elements already visited. *)
Lemma foldM_invariant {A B} (f : B → A → option A) (I : list B → A → Prop)
    (l : list B) (a : A) :
  I [] a →
  (∀ done k rest a, l = done ++ k :: rest → I done a →
     ∃ a', f k a = Some a' ∧ I (done ++ [k]) a') →
  ∃ a', foldM f l a = Some a' ∧ I l a'.
Proof.
  intros H0 Hstep.
  assert (∀ rest done a, l = done ++ rest → I done a →
            ∃ a', foldM f rest a = Some a' ∧ I l a') as Hgen.
  { induction rest as [|k rest IH]; intros done a0 Hl Ha0; simpl.
    - rewrite app_nil_r in Hl. subst. eauto.
    - destruct (Hstep done k rest a0 Hl Ha0) as (a1 & -> & Ha1). simpl.
      apply (IH (done ++ [k])); [|done]. by rewrite <- app_assoc. }
  by apply (Hgen l [] a).
Qed.

(** The nested loops visit the cells of [coords]. *)
Lemma foldM_nested {A} (body : nat → nat → A → option A) (xs_of : A → list nat)
    (ys : list nat) (a : A) :
  (∀ y x a a', body y x a = Some a' → xs_of a' = xs_of a) →
  foldM (λ y a, foldM (body y) (xs_of a) a) ys a
  = foldM (λ p, body p.1 p.2) (coords ys (xs_of a)) a.
Proof.
  intros Hxs. revert a. induction ys as [|y ys IH]; intros a; [done|].
  unfold coords. simpl. fold (coords ys (xs_of a)).
  rewrite foldM_app, foldM_fmap. simpl.
  destruct (foldM (body y) (xs_of a) a) as [a1|] eqn:Hrow; simpl; [|done].
  assert (xs_of a1 = xs_of a) as <-.
  { apply (foldM_preserves (body y) (λ a', xs_of a' = xs_of a) (xs_of a)) with a;
      [|done..].
    intros x a' a'' Hb <-. by eapply Hxs. }
  apply IH.
Qed.

Lemma elem_of_coords (ys xs : list nat) (y x : nat) :
  (y, x) ∈ coords ys xs ↔ y ∈ ys ∧ x ∈ xs.
Proof.
  unfold coords. rewrite list_elem_of_bind. split.
  - intros (y' & Hin & Hy'). apply list_elem_of_fmap in Hin as (x' & [= -> ->] & Hx'). done.
  - intros [Hy Hx]. exists y. split; [|done]. apply list_elem_of_fmap. eauto.
Qed.

Lemma elem_of_Range (b e k : nat) : k ∈ Range b e ↔ b ≤ k ≤ e.
Proof. unfold Range. rewrite elem_of_seq. lia. Qed.

Lemma elem_of_step (n k : nat) : k ∈ step n ↔ k < n.
Proof. unfold step. rewrite elem_of_seq. lia. Qed.

(** ** The order of the nested loops *)

Lemma coords_cons (y : nat) (ys xs : list nat) :
  coords (y :: ys) xs = (pair y <$> xs) ++ coords ys xs.
Proof. done. Qed.

Lemma coords_lookup (a n b m i j : nat) :
  i < n → j < m → coords (seq a n) (seq b m) !! (i * m + j) = Some (a + i, b + j).
Proof.
  revert a i. induction n as [|n IH]; intros a i Hi Hj; [lia|].
  simpl seq. rewrite coords_cons. destruct i as [|i].
  - rewrite lookup_app_l by (rewrite length_fmap, length_seq; lia).
    rewrite list_lookup_fmap, lookup_seq_lt by lia. simpl. do 2 f_equal. lia.
  - rewrite lookup_app_r by (rewrite length_fmap, length_seq; lia).
    rewrite length_fmap, length_seq.
    replace (S i * m + j - m) with (i * m + j) by lia.
    rewrite IH by lia. do 2 f_equal. lia.
Qed.

Lemma coords_NoDup (ys xs : list nat) : NoDup ys → NoDup xs → NoDup (coords ys xs).
Proof.
  intros Hys Hxs. unfold coords. apply NoDup_bind; [| |done].
  - intros y1 y2 [y x] _ _ H1 H2.
    apply list_elem_of_fmap in H1 as (? & [= -> _] & _).
    apply list_elem_of_fmap in H2 as (? & [= -> _] & _). done.
  - intros y _. apply NoDup_fmap_2; [|done]. by intros ?? [= ->].
Qed.

Lemma NoDup_not_in_prefix {A} (done rest : list A) (k : A) :
  NoDup (done ++ k :: rest) → k ∉ done.
Proof.
  intros Hnd Hin. apply NoDup_app in Hnd as (_ & Hdisj & _).
  apply (Hdisj k Hin). by left.
Qed.

Lemma coords_length (ys xs : list nat) :
  length (coords ys xs) = length ys * length xs.
Proof.
  induction ys as [|y ys IH]; [done|].
  rewrite coords_cons, length_app, length_fmap, IH. simpl. lia.
Qed.

Lemma Range_1 (n : nat) : Range 1 n = seq 1 n.
Proof. unfold Range. f_equal. lia. Qed.

(** ** Grid accesses *)

Lemma grid_get_is_Some (gr : Grid) (y x : nat) :
  length (data gr) = height gr * width gr → in_grid gr y x →
  is_Some (grid_get gr y x).
Proof.
  intros Hlen [Hy Hx]. apply lookup_lt_is_Some. rewrite Hlen. by apply flat_lt.
Qed.

Lemma grid_set_Some (gr : Grid) (y x : nat) (c : Cell) :
  y * width gr + x < length (data gr) →
  grid_set gr y x c
  = Some (mkGrid (width gr) (height gr) (<[y * width gr + x := c]> (data gr))).
Proof. intros Hlt. unfold grid_set. by rewrite decide_True. Qed.

Lemma grid_get_insert_eq (w h : nat) (l : list Cell) (y x : nat) (c : Cell) :
  y * w + x < length l →
  grid_get (mkGrid w h (<[y * w + x := c]> l)) y x = Some c.
Proof. intros Hlt. unfold grid_get. simpl. by apply list_lookup_insert_eq. Qed.

Lemma grid_get_insert_ne (w h : nat) (l : list Cell) (y x y' x' : nat) (c : Cell) :
  x < w → x' < w → (y, x) ≠ (y', x') →
  grid_get (mkGrid w h (<[y * w + x := c]> l)) y' x' = l !! (y' * w + x').
Proof.
  intros Hx Hx' Hne. unfold grid_get. simpl.
  apply list_lookup_insert_ne. by apply flat_ne.
Qed.

Lemma grid_set_width (gr gr' : Grid) (y x : nat) (c : Cell) :
  grid_set gr y x c = Some gr' → width gr' = width gr.
Proof. unfold grid_set. case_decide; [|done]. by intros [= <-]. Qed.

(** ** Update: the invariant of the second loop *)

Lemma Update_cell_width (gr gr' : Grid) (y x : nat) :
  Update_cell y x gr = Some gr' → width gr' = width gr.
Proof.
  unfold Update_cell, grid_set_current. intros Hstep.
  repeat (apply bind_Some in Hstep as (? & _ & Hstep)).
  by eapply grid_set_width.
Qed.

Lemma rule_code (center n1 n2 n3 n4 n5 n6 n7 n8 : bool) :
  let centerCell := Z.b2z center in
  let numLivingCell :=
    (0 + Z.b2z n1 + Z.b2z n2 + Z.b2z n3 + Z.b2z n4 + Z.b2z n5
     + Z.b2z n6 + Z.b2z n7 + Z.b2z n8)%Z in
  ((centerCell =? 0)%Z && (numLivingCell =? 3)%Z)
  || ((centerCell =? 1)%Z && ((numLivingCell =? 2)%Z || (numLivingCell =? 3)%Z))
  = rule center (Nat.b2n n1 + Nat.b2n n2 + Nat.b2n n3 + Nat.b2n n4 + Nat.b2n n5
                 + Nat.b2n n6 + Nat.b2n n7 + Nat.b2n n8).
Proof.
  destruct center, n1, n2, n3, n4, n5, n6, n7, n8; reflexivity.
Qed.

Section Update_loop.
Variables (W H : nat) (gi : Grid).
Hypothesis Hwidth : width gi = W + 2.
Hypothesis Hheight : height gi = H + 2.
Hypothesis Hwf : Grid_wf gi.

Lemma Update_inv_start :
  Update_inv gi [] (mkGrid (width gi) (height gi) (snapshot <$> data gi)).
Proof.
  destruct Hwf as (Hlen & _ & _).
  unfold Update_inv. simpl. rewrite length_fmap. repeat split; [done..|].
  intros y x Hin. destruct (grid_get_is_Some gi y x Hlen Hin) as [c Hc].
  exists (snapshot c). unfold alive, grid_get in *. simpl.
  rewrite list_lookup_fmap, Hc. simpl. done.
Qed.

Lemma Update_cell_inv (done : list (nat * nat)) (gr : Grid) (y x : nat) :
  logical W H y x → Update_inv gi done gr →
  ∃ gr', Update_cell y x gr = Some gr' ∧ Update_inv gi (done ++ [(y, x)]) gr'.
Proof.
  intros [Hy Hx] (Hw & Hh & Hlen & Hcells).
  destruct Hwf as (Hlen0 & Hwmax & Hhmax). rewrite Hwidth in Hwmax. rewrite Hheight in Hhmax.
  assert (∀ y' x', y' < H + 2 → x' < W + 2 →
            ∃ c, grid_get gr y' x' = Some c ∧ previous c = alive gi y' x') as Hread.
  { intros y' x' Hy' Hx'. destruct (Hcells y' x') as (c & Hc & Hp & _).
    - unfold in_grid. lia.
    - eauto. }
  unfold Update_cell.
  rewrite !size_sub_small, !size_add_small by lia.
  destruct (Hread y x) as (c & Hc & Hp); [lia..|].
  destruct (Hread (y - 1) (x - 1)) as (c1 & Hc1 & Hp1); [lia..|].
  destruct (Hread (y - 1) x) as (c2 & Hc2 & Hp2); [lia..|].
  destruct (Hread (y - 1) (x + 1)) as (c3 & Hc3 & Hp3); [lia..|].
  destruct (Hread y (x - 1)) as (c4 & Hc4 & Hp4); [lia..|].
  destruct (Hread y (x + 1)) as (c5 & Hc5 & Hp5); [lia..|].
  destruct (Hread (y + 1) (x - 1)) as (c6 & Hc6 & Hp6); [lia..|].
  destruct (Hread (y + 1) x) as (c7 & Hc7 & Hp7); [lia..|].
  destruct (Hread (y + 1) (x + 1)) as (c8 & Hc8 & Hp8); [lia..|].
  rewrite Hc, Hc1, Hc2, Hc3, Hc4, Hc5, Hc6, Hc7, Hc8. simpl.
  rewrite (rule_code (previous c) (previous c1) (previous c2) (previous c3)
             (previous c4) (previous c5) (previous c6) (previous c7) (previous c8)).
  rewrite Hp, Hp1, Hp2, Hp3, Hp4, Hp5, Hp6, Hp7, Hp8.
  fold (neighborCount gi y x).
  unfold grid_set_current. rewrite Hc. simpl.
  assert (y * width gr + x < length (data gr)) as Hlt.
  { apply lookup_lt_is_Some. unfold grid_get in Hc. eauto. }
  rewrite grid_set_Some by done. eexists. split; [done|].
  unfold Update_inv. simpl. rewrite length_insert. repeat split; [done..|].
  intros y' x' Hin. pose proof Hin as [Hy' Hx']. rewrite Hwidth in Hx'.
  destruct (decide ((y', x') = (y, x))) as [[= -> ->]|Hne].
  - rewrite grid_get_insert_eq by done. eexists. split; [done|]. simpl.
    split; [done|]. rewrite decide_True; [done|].
    apply elem_of_app. right. by apply list_elem_of_singleton.
  - rewrite grid_get_insert_ne by (rewrite ?Hw, ?Hwidth; (lia || congruence)).
    destruct (Hcells y' x' Hin) as (c' & Hc' & Hp' & Hcur).
    exists c'. split; [done|]. split; [done|]. rewrite Hcur.
    destruct (decide ((y', x') ∈ done)) as [Hd|Hd].
    + rewrite decide_True; [done|]. apply elem_of_app. by left.
    + rewrite decide_False; [done|]. rewrite elem_of_app, list_elem_of_singleton.
      by intros [?|?].
Qed.

Lemma Update_loop_inv :
  ∃ gr', Update gi = Some gr'
         ∧ Update_inv gi (coords (Range 1 H) (Range 1 W)) gr'.
Proof.
  pose proof Hwf as (Hlen0 & Hwmax & Hhmax).
  unfold Update.
  rewrite (foldM_nested Update_cell (λ gr, Range 1 (size_sub (width gr) 2))).
  2:{ intros y x gr gr' Hstep. f_equal. f_equal. by eapply Update_cell_width. }
  simpl. rewrite !size_sub_small by lia.
  replace (width gi - 2) with W by lia. replace (height gi - 2) with H by lia.
  apply (foldM_invariant _ (Update_inv gi)); [apply Update_inv_start|].
  intros done [y x] rest gr Hl Hinv. simpl.
  apply Update_cell_inv; [|done].
  assert ((y, x) ∈ coords (Range 1 H) (Range 1 W)) as Hin.
  { rewrite Hl. apply elem_of_app. right. by left. }
  apply elem_of_coords in Hin as [Hy Hx].
  apply elem_of_Range in Hy, Hx. done.
Qed.
End Update_loop.

(** ** Update: what one call computes *)

Lemma Update_spec (W H : nat) (gi : Grid) :
  Grid_wf gi → width gi = W + 2 → height gi = H + 2 →
  ∃ gr', Update gi = Some gr' ∧ Grid_wf gr'
         ∧ width gr' = W + 2 ∧ height gr' = H + 2
         ∧ ∀ y x, in_grid gi y x →
             grid_get gr' y x
             = Some (mkCell (alive gi y x)
                       (if decide (logical W H y x)
                        then rule (alive gi y x) (neighborCount gi y x)
                        else alive gi y x)).
Proof.
  intros Hwf Hw Hh.
  destruct (Update_loop_inv W H gi Hw Hh Hwf) as (gr' & Hup & Hw' & Hh' & Hlen & Hcells).
  exists gr'. split; [done|]. split.
  { destruct Hwf as (Hl & ? & ?). unfold Grid_wf. by rewrite Hw', Hh', Hlen. }
  split; [congruence|]. split; [congruence|].
  intros y x Hin. destruct (Hcells y x Hin) as ([p c] & -> & Hp & Hc).
  simpl in *. subst p c. do 2 f_equal. apply decide_ext.
  rewrite elem_of_coords, !elem_of_Range. done.
Qed.

Lemma Update_alive (W H : nat) (gi gr' : Grid) (y x : nat) :
  Grid_wf gi → width gi = W + 2 → height gi = H + 2 →
  Update gi = Some gr' → in_grid gi y x →
  alive gr' y x = if decide (logical W H y x)
                  then rule (alive gi y x) (neighborCount gi y x)
                  else alive gi y x.
Proof.
  intros Hwf Hw Hh Hup Hin.
  destruct (Update_spec W H gi Hwf Hw Hh) as (gr & Hup' & _ & _ & _ & Hcells).
  assert (gr = gr') as -> by congruence.
  unfold alive at 1. by rewrite (Hcells y x Hin).
Qed.

Lemma rule_true (center : bool) (n : nat) :
  rule center n = true ↔
  (center = false ∧ n = 3) ∨ (center = true ∧ (n = 2 ∨ n = 3)).
Proof.
  unfold rule. destruct center; simpl.
  - rewrite orb_true_iff, !Nat.eqb_eq. intuition congruence.
  - rewrite orb_false_r, Nat.eqb_eq. intuition congruence.
Qed.

(** C1. For every grid and every logical cell, one call of [Update] makes
    the cell's [current] true exactly when the cell was dead with 3 live
    neighbours or alive with 2 or 3 live neighbours, counted over the
    generation the call started from; in every other case it is false. *)
Theorem Update_rule (W H : nat) (gi : Grid) (y x : nat) :
  Grid_wf gi → width gi = W + 2 → height gi = H + 2 → logical W H y x →
  ∃ gr' c', Update gi = Some gr' ∧ grid_get gr' y x = Some c' ∧
    (current c' = true ↔
       (alive gi y x = false ∧ neighborCount gi y x = 3)
       ∨ (alive gi y x = true
          ∧ (neighborCount gi y x = 2 ∨ neighborCount gi y x = 3))) ∧
    (current c' = false ↔
       ¬ ((alive gi y x = false ∧ neighborCount gi y x = 3)
          ∨ (alive gi y x = true
             ∧ (neighborCount gi y x = 2 ∨ neighborCount gi y x = 3)))).
Proof.
  intros Hwf Hw Hh Hlog.
  destruct (Update_spec W H gi Hwf Hw Hh) as (gr' & Hup & _ & _ & _ & Hcells).
  exists gr'. eexists. split; [done|]. split.
  { apply Hcells. destruct Hlog. unfold in_grid. lia. }
  simpl. rewrite decide_True by done. rewrite <- rule_true.
  split; [done|]. by destruct (rule _ _).
Qed.

Lemma blinker_row_wf : Grid_wf blinker_row.
Proof. repeat split. Qed.

Lemma Update_rule_witness :
  ∃ gr' c', Update blinker_row = Some gr' ∧ grid_get gr' 1 2 = Some c' ∧
    (current c' = true ↔
       (alive blinker_row 1 2 = false ∧ neighborCount blinker_row 1 2 = 3)
       ∨ (alive blinker_row 1 2 = true
          ∧ (neighborCount blinker_row 1 2 = 2 ∨ neighborCount blinker_row 1 2 = 3))) ∧
    (current c' = false ↔
       ¬ ((alive blinker_row 1 2 = false ∧ neighborCount blinker_row 1 2 = 3)
          ∨ (alive blinker_row 1 2 = true
             ∧ (neighborCount blinker_row 1 2 = 2 ∨ neighborCount blinker_row 1 2 = 3)))).
Proof.
  apply (Update_rule 3 3 blinker_row 1 2);
    [exact blinker_row_wf | reflexivity | reflexivity | unfold logical; lia].
Defined.

(** C9. [Update] runs to completion on every grid: the first loop visits
    the cells of the storage once each, the nested loops run their body
    once for each of the [(height - 2) * (width - 2)] cells off the border,
    and every access stays inside the storage, so the call returns a grid,
    of the same dimensions. *)
Theorem Update_total (gi : Grid) :
  Grid_wf gi → 2 ≤ width gi → 2 ≤ height gi →
  ∃ gr', Update gi = Some gr' ∧ Grid_wf gr'
    ∧ width gr' = width gi ∧ height gr' = height gi
    ∧ ∃ cells, length cells = (height gi - 2) * (width gi - 2)
        ∧ Update gi
          = foldM (λ p, Update_cell p.1 p.2) cells
              (mkGrid (width gi) (height gi) (snapshot <$> data gi)).
Proof.
  intros Hwf Hw Hh.
  destruct (Update_spec (width gi - 2) (height gi - 2) gi Hwf)
    as (gr' & Hup & Hwf' & Hw' & Hh' & _); [lia..|].
  exists gr'. split; [done|]. split; [done|]. do 2 (split; [lia|]).
  exists (coords (Range 1 (height gi - 2)) (Range 1 (width gi - 2))). split.
  { by rewrite coords_length, !Range_1, !length_seq. }
  destruct Hwf as (_ & Hwmax & Hhmax). unfold Update.
  rewrite (foldM_nested Update_cell (λ gr, Range 1 (size_sub (width gr) 2))).
  - simpl. by rewrite !size_sub_small by lia.
  - intros y x gr gr1 Hstep. f_equal. f_equal. by eapply Update_cell_width.
Qed.

Lemma Update_total_witness :
  ∃ gr', Update blinker_row = Some gr' ∧ Grid_wf gr'
    ∧ width gr' = width blinker_row ∧ height gr' = height blinker_row
    ∧ ∃ cells, length cells = (height blinker_row - 2) * (width blinker_row - 2)
        ∧ Update blinker_row
          = foldM (λ p, Update_cell p.1 p.2) cells
              (mkGrid (width blinker_row) (height blinker_row)
                 (snapshot <$> data blinker_row)).
Proof.
  apply (Update_total blinker_row); [exact blinker_row_wf | simpl; lia | simpl; lia].
Defined.

(** C6. [Update] is a function of the grid alone: equal grids give equal
    results; the result depends only on the dimensions and the [current]
    bits; and in the frame loop a step changes neither the generator nor
    the image. *)
Theorem Update_deterministic (g1 g2 : Grid) :
  (g1 = g2 → Update g1 = Update g2) ∧
  (width g1 = width g2 → height g1 = height g2 →
   current <$> data g1 = current <$> data g2 → Update g1 = Update g2) ∧
  (∀ inp s s', frame_update inp s = Some s' → rng s' = rng s ∧ image s' = image s).
Proof.
  split; [by intros ->|]. split.
  - intros Hw Hh Hcur. unfold Update.
    assert (snapshot <$> data g1 = snapshot <$> data g2) as Hsnap.
    { change snapshot with ((λ v, mkCell v v) ∘ current).
      by rewrite !list_fmap_compose, Hcur. }
    by rewrite Hw, Hh, Hsnap.
  - intros inp s s'. unfold frame_update. destruct (buttonUpdate inp).
    + destruct (Update (grid s)); simpl; [|done]. by intros [= <-].
    + by intros [= <-].
Qed.

Lemma Update_deterministic_witness : Update blinker_row = Update blinker_row_stale.
Proof.
  apply (proj1 (proj2 (Update_deterministic blinker_row blinker_row_stale)));
    reflexivity.
Defined.

(** ** The padding ring under Update *)

Lemma padding_in_grid (W H : nat) (gr : Grid) (y x : nat) :
  width gr = W + 2 → height gr = H + 2 → padding W H y x → in_grid gr y x.
Proof. intros Hw Hh (Hy & Hx & _). unfold in_grid. lia. Qed.

Lemma Update_padding (W H : nat) (gi gr' : Grid) :
  Grid_wf gi → width gi = W + 2 → height gi = H + 2 →
  padding_dead W H gi → Update gi = Some gr' → padding_dead W H gr'.
Proof.
  intros Hwf Hw Hh Hpad Hup y x Hp.
  destruct (Update_spec W H gi Hwf Hw Hh) as (gr & Hup' & _ & _ & _ & Hcells).
  assert (gr = gr') as -> by congruence.
  rewrite (Hcells y x) by by eapply padding_in_grid.
  rewrite decide_False by apply Hp.
  unfold alive. by rewrite (Hpad y x Hp).
Qed.

Lemma Update_iter_padding (W H n : nat) (gi : Grid) :
  Grid_wf gi → width gi = W + 2 → height gi = H + 2 → padding_dead W H gi →
  ∃ gr', Update_iter n gi = Some gr' ∧ Grid_wf gr'
         ∧ width gr' = W + 2 ∧ height gr' = H + 2 ∧ padding_dead W H gr'.
Proof.
  revert gi. induction n as [|n IH]; intros gi Hwf Hw Hh Hpad; simpl.
  { exists gi. done. }
  destruct (Update_spec W H gi Hwf Hw Hh) as (g1 & Hup & Hwf1 & Hw1 & Hh1 & _).
  rewrite Hup. simpl. apply IH; [done..|].
  exact (Update_padding W H gi g1 Hwf Hw Hh Hpad Hup).
Qed.

(** ** The blinker *)

Lemma rule_blinker_cases (W H : nat) (gi gr' : Grid) (P Q : nat → nat → Prop)
    `{!∀ r c, Decision (P r c)} `{!∀ r c, Decision (Q r c)} :
  Grid_wf gi → width gi = W + 2 → height gi = H + 2 → Update gi = Some gr' →
  (∀ r c, in_grid gi r c → alive gi r c = bool_decide (P r c)) →
  (∀ r c, P r c → logical W H r c) →
  (∀ r c, Q r c → logical W H r c) →
  (∀ r c, logical W H r c →
     rule (bool_decide (P r c))
       (Nat.b2n (bool_decide (P (r - 1) (c - 1))) + Nat.b2n (bool_decide (P (r - 1) c))
        + Nat.b2n (bool_decide (P (r - 1) (c + 1)))
        + Nat.b2n (bool_decide (P r (c - 1))) + Nat.b2n (bool_decide (P r (c + 1)))
        + Nat.b2n (bool_decide (P (r + 1) (c - 1))) + Nat.b2n (bool_decide (P (r + 1) c))
        + Nat.b2n (bool_decide (P (r + 1) (c + 1))))
     = bool_decide (Q r c)) →
  ∀ r c, in_grid gi r c → alive gr' r c = bool_decide (Q r c).
Proof.
  intros Hwf Hw Hh Hup Halive HP HQ Hrule r c Hin.
  rewrite (Update_alive W H gi gr' r c Hwf Hw Hh Hup Hin).
  destruct (decide (logical W H r c)) as [Hlog|Hlog].
  - rewrite <- (Hrule r c Hlog). unfold neighborCount.
    destruct Hlog as [Hr Hc].
    rewrite !Halive by (unfold in_grid; lia). done.
  - rewrite Halive by done.
    rewrite !bool_decide_eq_false_2; [done|naive_solver..].
Qed.

Ltac blinker_cases :=
  intros r c [Hr Hc]; unfold blinker_horizontal, blinker_vertical;
  repeat (case_bool_decide; try lia); reflexivity.

Lemma alive_bool_decide (gr : Grid) (P : nat → nat → Prop)
    `{!∀ r c, Decision (P r c)} :
  (∀ r c, in_grid gr r c → (alive gr r c = true ↔ P r c)) ↔
  (∀ r c, in_grid gr r c → alive gr r c = bool_decide (P r c)).
Proof.
  split; intros Hal r c Hin.
  - specialize (Hal r c Hin). case_bool_decide as HP.
    + by apply Hal.
    + destruct (alive gr r c); [|done]. exfalso. apply HP. by apply Hal.
  - rewrite (Hal r c Hin). apply bool_decide_eq_true.
Qed.

(** C4. A row of three live cells on an otherwise empty grid, with the
    cells above and below its middle inside the field, becomes after one
    [Update] exactly the column of three live cells through its middle, and
    after a second [Update] exactly the row again. *)
Theorem blinker_oscillates (W H x y : nat) (gi : Grid) :
  Grid_wf gi → width gi = W + 2 → height gi = H + 2 →
  1 ≤ y → y + 2 ≤ H → x + 3 ≤ W →
  (∀ r c, in_grid gi r c → (alive gi r c = true ↔ blinker_horizontal x y r c)) →
  ∃ g1 g2, Update gi = Some g1 ∧ Update g1 = Some g2 ∧
    (∀ r c, in_grid gi r c → (alive g1 r c = true ↔ blinker_vertical x y r c)) ∧
    (∀ r c, in_grid gi r c → (alive g2 r c = true ↔ blinker_horizontal x y r c)).
Proof.
  intros Hwf Hw Hh Hy1 Hy2 Hx Hrow.
  destruct (Update_spec W H gi Hwf Hw Hh) as (g1 & Hup1 & Hwf1 & Hw1 & Hh1 & _).
  destruct (Update_spec W H g1 Hwf1 Hw1 Hh1) as (g2 & Hup2 & _ & _ & _ & _).
  exists g1, g2. split; [done|]. split; [done|].
  pose proof (proj1 (alive_bool_decide gi (blinker_horizontal x y)) Hrow) as Hrow'.
  assert (∀ r c, in_grid g1 r c ↔ in_grid gi r c) as Hgrid.
  { intros r c. unfold in_grid. by rewrite Hw, Hh, Hw1, Hh1. }
  assert (∀ r c, in_grid gi r c → alive g1 r c = bool_decide (blinker_vertical x y r c))
    as Hcol.
  { apply (rule_blinker_cases W H gi g1 (blinker_horizontal x y) (blinker_vertical x y));
      try done.
    - unfold blinker_horizontal, logical. lia.
    - unfold blinker_vertical, logical. lia.
    - blinker_cases. }
  split.
  { intros r c Hin. rewrite (Hcol r c Hin). apply bool_decide_eq_true. }
  intros r c Hin.
  assert (alive g2 r c = bool_decide (blinker_horizontal x y r c)) as ->;
    [|apply bool_decide_eq_true].
  apply Hgrid in Hin. revert r c Hin.
  apply (rule_blinker_cases W H g1 g2 (blinker_vertical x y) (blinker_horizontal x y));
    try done.
  - intros r c Hin. apply Hcol. by apply Hgrid.
  - unfold blinker_vertical, logical. lia.
  - unfold blinker_horizontal, logical. lia.
  - blinker_cases.
Qed.

Lemma blinker_oscillates_witness :
  ∃ g1 g2, Update blinker_row = Some g1 ∧ Update g1 = Some g2 ∧
    (∀ r c, in_grid blinker_row r c →
       (alive g1 r c = true ↔ blinker_vertical 0 1 r c)) ∧
    (∀ r c, in_grid blinker_row r c →
       (alive g2 r c = true ↔ blinker_horizontal 0 1 r c)).
Proof.
  apply (blinker_oscillates 3 3 0 1 blinker_row);
    [exact blinker_row_wf | reflexivity | reflexivity | lia | lia | lia |].
  intros r c [Hr Hc]. simpl in Hr, Hc. unfold blinker_horizontal.
  do 5 (destruct r as [|r];
        [do 5 (destruct c as [|c]; [vm_compute; split; intros ?; (done || lia)|]); lia|]).
  lia.
Defined.

(** On the top edge of the field the cell above the middle is a padding
    cell, which [Update] never writes: the column comes out one cell short. *)
Example blinker_top_edge :
  (λ gr, current <$> data gr) <$> Update blinker_top
  = Some (current <$> data (grid_of_live 5 5 [(1, 2); (2, 2)])).
Proof. reflexivity. Qed.

(** ** FillRandom *)

Lemma FillRandom_cell_width (y x : nat) (s s' : Grid * Rng) :
  FillRandom_cell y x s = Some s' → width s'.1 = width s.1.
Proof.
  unfold FillRandom_cell. simpl. intros Hstep.
  apply bind_Some in Hstep as (g' & Hset & [= <-]). simpl.
  by eapply grid_set_width.
Qed.

Section FillRandom_loop.
Variables (W H : nat) (gi : Grid) (rn : Rng).
Hypothesis Hwidth : width gi = W + 2.
Hypothesis Hheight : height gi = H + 2.
Hypothesis Hwf : Grid_wf gi.

Lemma FillRandom_inv_start :
  FillRandom_inv gi rn [] (Grid_fill gi (mkCell false false), rn).
Proof.
  destruct Hwf as (Hlen & _ & _).
  unfold FillRandom_inv. simpl. rewrite length_fmap.
  do 5 (split; [done || lia|]).
  intros y x Hin. split; [by intros k [=]|].
  intros _. destruct (grid_get_is_Some gi y x Hlen) as [c Hc]; [done|].
  unfold grid_get in *. simpl. by rewrite list_lookup_fmap, Hc.
Qed.

Lemma FillRandom_cell_inv (done : list (nat * nat)) (s : Grid * Rng) (y x : nat) :
  logical W H y x → (y, x) ∉ done → FillRandom_inv gi rn done s →
  ∃ s', FillRandom_cell y x s = Some s'
        ∧ FillRandom_inv gi rn (done ++ [(y, x)]) s'.
Proof.
  intros [Hy Hx] Hfresh (Hw & Hh & Hlen & Hdraws & Hdrawn & Hcells).
  destruct Hwf as (Hlen0 & _ & _).
  unfold FillRandom_cell. simpl.
  assert (y * width s.1 + x < length (data s.1)) as Hlt.
  { rewrite Hlen, Hlen0, Hw. apply flat_lt; lia. }
  rewrite grid_set_Some by done. simpl. eexists. split; [done|].
  unfold FillRandom_inv. simpl. rewrite length_insert, length_app. simpl.
  do 5 (split; [done || lia|]).
  intros y0 x0 [Hy0 Hx0]. split.
  - intros k Hk. destruct (decide (k = length done)) as [->|Hne].
    + rewrite lookup_app_r, Nat.sub_diag in Hk by lia. injection Hk as <- <-.
      rewrite grid_get_insert_eq by done. by rewrite Hdraws, Hdrawn.
    + assert (done !! k = Some (y0, x0)) as Hk'.
      { apply lookup_app_Some in Hk as [Hk|[Hge Hk]]; [done|].
        apply lookup_lt_Some in Hk. simpl in Hk. lia. }
      rewrite grid_get_insert_ne.
      * by apply (Hcells y0 x0).
      * lia.
      * lia.
      * intros [= -> ->]. apply Hfresh. by eapply list_elem_of_lookup_2.
  - intros Hnot. apply not_elem_of_app in Hnot as [Hnot Hne].
    rewrite grid_get_insert_ne.
    + by apply (Hcells y0 x0).
    + lia.
    + lia.
    + intros [= -> ->]. apply Hne. by left.
Qed.

Lemma FillRandom_loop_inv :
  ∃ s', FillRandom (gi, rn) = Some s'
        ∧ FillRandom_inv gi rn (coords (Range 1 H) (Range 1 W)) s'.
Proof.
  pose proof Hwf as (Hlen0 & Hwmax & Hhmax).
  unfold FillRandom.
  rewrite (foldM_nested FillRandom_cell (λ s, Range 1 (size_sub (width s.1) 2))).
  2:{ intros y x s s' Hstep. f_equal. f_equal. by eapply FillRandom_cell_width. }
  simpl. rewrite !size_sub_small by lia.
  replace (width gi - 2) with W by lia. replace (height gi - 2) with H by lia.
  apply (foldM_invariant _ (FillRandom_inv gi rn)); [apply FillRandom_inv_start|].
  intros done [y x] rest s Hl Hinv. simpl.
  assert ((y, x) ∈ coords (Range 1 H) (Range 1 W)) as Hin.
  { rewrite Hl. apply elem_of_app. right. by left. }
  apply elem_of_coords in Hin as [Hy Hx]. apply elem_of_Range in Hy, Hx.
  apply FillRandom_cell_inv; [done| |done].
  apply (NoDup_not_in_prefix done rest). rewrite <- Hl.
  apply coords_NoDup; apply NoDup_seq.
Qed.
End FillRandom_loop.

Lemma FillRandom_spec (W H : nat) (gi : Grid) (rn : Rng) :
  Grid_wf gi → width gi = W + 2 → height gi = H + 2 →
  ∃ gr' rn', FillRandom (gi, rn) = Some (gr', rn') ∧ Grid_wf gr'
    ∧ width gr' = W + 2 ∧ height gr' = H + 2
    ∧ (∀ y x, logical W H y x →
         grid_get gr' y x
         = Some (mkCell false (draws rn (drawn rn + draw_index W y x))))
    ∧ (∀ y x, padding W H y x → grid_get gr' y x = Some dead)
    ∧ draws rn' = draws rn ∧ drawn rn' = drawn rn + H * W.
Proof.
  intros Hwf Hw Hh.
  destruct (FillRandom_loop_inv W H gi rn Hw Hh Hwf)
    as ([gr' rn'] & Hfill & Hw' & Hh' & Hlen & Hdraws & Hdrawn & Hcells).
  simpl in *. exists gr', rn'. split; [done|]. split.
  { destruct Hwf as (Hl & ? & ?). unfold Grid_wf. by rewrite Hw', Hh', Hlen. }
  split; [congruence|]. split; [congruence|]. split; [|split; [|split]].
  - intros y x [Hy Hx]. apply Hcells; [unfold in_grid; lia|].
    rewrite !Range_1. unfold draw_index.
    rewrite coords_lookup by lia. do 2 f_equal; lia.
  - intros y x Hp. apply Hcells; [by eapply padding_in_grid|].
    rewrite elem_of_coords, !elem_of_Range. apply Hp.
  - done.
  - rewrite Hdrawn, coords_length, !Range_1, !length_seq. done.
Qed.

(** C3. On a grid whose padding is dead, as the caller is to have it and as
    [Main] always has it, [FillRandom] gives every logical cell
    [previous = false] and, as [current], a draw of the generator of its
    own (the draws are taken in row-major order, one per logical cell), and
    it leaves every padding cell as it was, [{ 0, 0 }]. *)
Theorem FillRandom_cells (W H : nat) (gi : Grid) (rn : Rng) :
  Grid_wf gi → width gi = W + 2 → height gi = H + 2 → padding_dead W H gi →
  ∃ gr' rn', FillRandom (gi, rn) = Some (gr', rn')
    ∧ (∀ y x, logical W H y x →
         grid_get gr' y x
         = Some (mkCell false (draws rn (drawn rn + draw_index W y x))))
    ∧ (∀ y x y' x', logical W H y x → logical W H y' x' →
         draw_index W y x = draw_index W y' x' → (y, x) = (y', x'))
    ∧ (∀ y x, logical W H y x → draw_index W y x < H * W)
    ∧ (∀ y x, padding W H y x →
         grid_get gr' y x = grid_get gi y x ∧ grid_get gr' y x = Some dead)
    ∧ draws rn' = draws rn ∧ drawn rn' = drawn rn + H * W.
Proof.
  intros Hwf Hw Hh Hdead.
  destruct (FillRandom_spec W H gi rn Hwf Hw Hh)
    as (gr' & rn' & Hfill & _ & _ & _ & Hlog & Hpad & Hdraws & Hdrawn).
  exists gr', rn'. split; [done|]. split; [done|].
  split; [|split; [|split; [|done]]].
  - intros y x y' x' [Hy Hx] [Hy' Hx'] Heq. unfold draw_index in Heq.
    apply flat_inj in Heq as [? ?]; [|lia..]. f_equal; lia.
  - intros y x [Hy Hx]. unfold draw_index.
    replace H with (S (H - 1)) at 2 by lia. apply flat_lt; lia.
  - intros y x Hp. split; [|by apply Hpad].
    by rewrite (Hpad y x Hp), (Hdead y x Hp).
Qed.

Lemma live_corner_wf : Grid_wf live_corner.
Proof. repeat split. Qed.

Lemma FillRandom_cells_witness :
  ∃ gr' rn', FillRandom (blinker_row, rng_alternating) = Some (gr', rn')
    ∧ (∀ y x, logical 3 3 y x →
         grid_get gr' y x
         = Some (mkCell false
                   (draws rng_alternating (drawn rng_alternating + draw_index 3 y x))))
    ∧ (∀ y x y' x', logical 3 3 y x → logical 3 3 y' x' →
         draw_index 3 y x = draw_index 3 y' x' → (y, x) = (y', x'))
    ∧ (∀ y x, logical 3 3 y x → draw_index 3 y x < 3 * 3)
    ∧ (∀ y x, padding 3 3 y x →
         grid_get gr' y x = grid_get blinker_row y x
         ∧ grid_get gr' y x = Some dead)
    ∧ draws rn' = draws rng_alternating
    ∧ drawn rn' = drawn rng_alternating + 3 * 3.
Proof.
  apply (FillRandom_cells 3 3 blinker_row rng_alternating);
    [exact blinker_row_wf | reflexivity | reflexivity |].
  intros y x (Hy & Hx & Hnot). unfold logical in Hnot.
  do 5 (destruct y as [|y]; [do 5 (destruct x as [|x]; [done || lia|]); lia|]).
  lia.
Defined.

(** Outside that premise the [grid.fill] that opens [FillRandom] shows: a
    live cell of the border ring, which [Main] never has, is dead after the
    call. *)
Example FillRandom_writes_padding :
  ∃ s', FillRandom (live_corner, rng_alternating) = Some s'
        ∧ padding 1 1 0 0
        ∧ grid_get live_corner 0 0 = Some (mkCell false true)
        ∧ grid_get s'.1 0 0 = Some (mkCell false false).
Proof.
  eexists. split; [reflexivity|]. split; [|done].
  unfold padding, logical. lia.
Qed.

(** ** Clear *)

(** C7. The clear of [Main] (lines 69-73: the button, then
    [grid.fill({ 0, 0 })]) makes every cell of the grid, the padding ring
    included, [{ 0, 0 }]; it keeps the grid's dimensions, the image and the
    generator, and raises [doesUpdate]. A second clear returns the state
    the first one gave: clearing twice is clearing once. *)
Theorem clear_idempotent (inp inp' : Input) (s : State) :
  buttonClear inp = true → buttonClear inp' = true →
  ∃ s', frame_clear inp s = Some s'
    ∧ width (grid s') = width (grid s) ∧ height (grid s') = height (grid s)
    ∧ data (grid s') = replicate (length (data (grid s))) dead
    ∧ (∀ y x c, grid_get (grid s') y x = Some c → c = dead)
    ∧ (length (data (grid s)) = height (grid s) * width (grid s) →
       ∀ y x, in_grid (grid s) y x → grid_get (grid s') y x = Some dead)
    ∧ image s' = image s ∧ rng s' = rng s ∧ doesUpdate s' = true
    ∧ frame_clear inp' s' = Some s'.
Proof.
  intros Hclear Hclear'.
  assert (∀ l : list Cell, (λ _, dead) <$> l = replicate (length l) dead) as Hrep.
  { induction l as [|c l IH]; simpl; [done|]. by f_equal. }
  unfold frame_clear at 1. rewrite Hclear. eexists. split; [done|].
  cbn [grid image rng doesUpdate]. change (mkCell false false) with dead.
  unfold Grid_fill at 1 2 3 4 5. cbn [width height data]. rewrite Hrep.
  do 3 (split; [done|]). split; [|split; [|do 3 (split; [done|])]].
  - intros y x c Hc. unfold grid_get in Hc. cbn [data width] in Hc.
    rewrite <- Hrep in Hc. rewrite list_lookup_fmap in Hc.
    destruct (data (grid s) !! _); by inversion Hc.
  - intros Hlen y x Hin. unfold grid_get. cbn [data width].
    apply lookup_replicate_2. rewrite Hlen. destruct Hin. by apply flat_lt.
  - unfold frame_clear. rewrite Hclear'. cbn [grid image rng].
    change (mkCell false false) with dead. do 2 f_equal.
    unfold Grid_fill. cbn [width height data]. f_equal.
    by rewrite <- list_fmap_compose, Hrep.
Qed.

Lemma clear_idempotent_witness :
  ∃ s', frame_clear all_buttons (mkState blinker_row one_pixel rng_alternating false)
        = Some s'
    ∧ width (grid s') = width blinker_row ∧ height (grid s') = height blinker_row
    ∧ data (grid s') = replicate (length (data blinker_row)) dead
    ∧ (∀ y x c, grid_get (grid s') y x = Some c → c = dead)
    ∧ (length (data blinker_row) = height blinker_row * width blinker_row →
       ∀ y x, in_grid blinker_row y x → grid_get (grid s') y x = Some dead)
    ∧ image s' = one_pixel ∧ rng s' = rng_alternating ∧ doesUpdate s' = true
    ∧ frame_clear all_buttons s' = Some s'.
Proof.
  apply (clear_idempotent all_buttons all_buttons
           (mkState blinker_row one_pixel rng_alternating false)); reflexivity.
Defined.

(** ** CopyToImage *)

Lemma image_set_width (img img' : Image) (y x : nat) (c : Color) :
  image_set img y x c = Some img' → image_width img' = image_width img.
Proof. unfold image_set. case_decide; [|done]. by intros [= <-]. Qed.

Lemma CopyToImage_pixel_width (gr : Grid) (y x : nat) (img img' : Image) :
  CopyToImage_pixel gr y x img = Some img' → image_width img' = image_width img.
Proof.
  unfold CopyToImage_pixel. intros Hstep.
  apply bind_Some in Hstep as (c & _ & Hset). by eapply image_set_width.
Qed.

Section CopyToImage_loop.
Variables (gr : Grid) (img0 : Image).
Hypothesis Hlen : length (data gr) = height gr * width gr.
Hypothesis Hwf : Image_wf img0.
Hypothesis Hwidth : image_width img0 + 1 ≤ width gr.
Hypothesis Hheight : image_height img0 + 1 ≤ height gr.

Lemma CopyToImage_pixel_inv (done : list (nat * nat)) (img : Image) (y x : nat) :
  y < image_height img0 → x < image_width img0 →
  CopyToImage_inv gr img0 done img →
  ∃ img', CopyToImage_pixel gr y x img = Some img'
          ∧ CopyToImage_inv gr img0 (done ++ [(y, x)]) img'.
Proof.
  intros Hy Hx (Hw & Hh & Hlen' & Hpix).
  unfold CopyToImage_pixel.
  destruct (grid_get_is_Some gr (y + 1) (x + 1) Hlen) as [c Hc];
    [unfold in_grid; lia|].
  rewrite Hc. simpl.
  assert (y * image_width img + x < length (pixels img)) as Hlt.
  { rewrite Hlen', Hwf, Hw. by apply flat_lt. }
  unfold image_set. rewrite decide_True by done. eexists. split; [done|].
  unfold CopyToImage_inv. simpl. rewrite length_insert.
  do 3 (split; [done|]). intros y' x' Hy' Hx'. unfold image_get at 1. simpl.
  destruct (decide ((y', x') = (y, x))) as [[= -> ->]|Hne].
  - rewrite list_lookup_insert_eq by done.
    rewrite decide_True by (apply elem_of_app; right; by left).
    unfold pixel_of, alive. by rewrite Hc.
  - rewrite Hw, list_lookup_insert_ne by (apply flat_ne; (done || congruence)).
    rewrite <- Hw. fold (image_get img y' x'). rewrite (Hpix y' x' Hy' Hx').
    apply decide_ext. rewrite elem_of_app, list_elem_of_singleton.
    split; [by left|]. by intros [?|?].
Qed.

Lemma CopyToImage_loop_inv :
  ∃ img', CopyToImage gr img0 = Some img'
          ∧ CopyToImage_inv gr img0
              (coords (step (image_height img0)) (step (image_width img0))) img'.
Proof.
  unfold CopyToImage.
  rewrite (foldM_nested (CopyToImage_pixel gr) (λ img, step (image_width img))).
  2:{ intros y x img img' Hstep. f_equal. by eapply CopyToImage_pixel_width. }
  apply (foldM_invariant _ (CopyToImage_inv gr img0)).
  { unfold CopyToImage_inv. do 3 (split; [done|]). intros y x _ _.
    by rewrite decide_False by apply not_elem_of_nil. }
  intros done [y x] rest img Hl Hinv. simpl.
  assert ((y, x) ∈ coords (step (image_height img0)) (step (image_width img0)))
    as Hin.
  { rewrite Hl. apply elem_of_app. right. by left. }
  apply elem_of_coords in Hin as [Hy Hx]. apply elem_of_step in Hy, Hx.
  by apply CopyToImage_pixel_inv.
Qed.
End CopyToImage_loop.

Lemma CopyToImage_spec (gr : Grid) (img : Image) :
  length (data gr) = height gr * width gr → Image_wf img →
  image_width img + 1 ≤ width gr → image_height img + 1 ≤ height gr →
  ∃ img', CopyToImage gr img = Some img' ∧ Image_wf img'
    ∧ image_width img' = image_width img ∧ image_height img' = image_height img
    ∧ ∀ y x, y < image_height img → x < image_width img →
        image_get img' y x = Some (pixel_of gr y x).
Proof.
  intros Hlen Hwf Hw Hh.
  destruct (CopyToImage_loop_inv gr img Hlen Hwf Hw Hh)
    as (img' & Hcopy & Hw' & Hh' & Hlen' & Hpix).
  exists img'. split; [done|]. split.
  { unfold Image_wf in *. by rewrite Hw', Hh', Hlen'. }
  do 2 (split; [done|]). intros y x Hy Hx. rewrite (Hpix y x Hy Hx).
  apply decide_True. rewrite elem_of_coords, !elem_of_step. done.
Qed.

Lemma image_pixels_eq (gr : Grid) (img : Image) :
  Image_wf img →
  (∀ y x, y < image_height img → x < image_width img →
     image_get img y x = Some (pixel_of gr y x)) →
  pixels img
  = (λ p, pixel_of gr p.1 p.2) <$> coords (step (image_height img)) (step (image_width img)).
Proof.
  intros Hwf Hpix. apply list_eq. intros i.
  destruct (decide (i < image_height img * image_width img)) as [Hlt|Hge].
  - assert (0 < image_width img) as Hpos by nia.
    pose proof (Nat.div_mod_eq i (image_width img)) as Hi.
    pose proof (Nat.mod_upper_bound i (image_width img)) as Hx.
    assert (i `div` image_width img < image_height img) as Hy.
    { apply Nat.Div0.div_lt_upper_bound. lia. }
    replace i with (i `div` image_width img * image_width img + i `mod` image_width img)
      at 1 2 by lia.
    unfold image_get in Hpix. rewrite Hpix by lia.
    unfold step. rewrite list_lookup_fmap, coords_lookup by lia. done.
  - rewrite !lookup_ge_None_2; [done| |].
    + rewrite length_fmap, coords_length. unfold step. rewrite !length_seq. lia.
    + rewrite Hwf. lia.
Qed.

(** C5. When the image has the field's dimensions, [CopyToImage] sets
    every pixel [(x, y)] to the alive colour if the logical cell [(x, y)]
    (stored at row [y + 1], column [x + 1]) is alive and to the dead colour
    otherwise; the pixels it leaves are exactly these, the dimensions are
    kept. With only the logical cell [(3, 4)] alive, pixel [(3, 4)] has the
    alive colour and every other pixel the dead one. *)
Theorem CopyToImage_projection (W H : nat) (gr : Grid) (img : Image) :
  Grid_wf gr → width gr = W + 2 → height gr = H + 2 →
  Image_wf img → image_width img = W → image_height img = H →
  ∃ img', CopyToImage gr img = Some img'
    ∧ image_width img' = W ∧ image_height img' = H
    ∧ (∀ y x, y < H → x < W →
         image_get img' y x
         = Some (if alive gr (y + 1) (x + 1) then colorLivingCell else colorDeadCell))
    ∧ pixels img' = (λ p, pixel_of gr p.1 p.2) <$> coords (step H) (step W)
    ∧ ((∀ y x, y < H → x < W → (alive gr (y + 1) (x + 1) = true ↔ x = 3 ∧ y = 4)) →
       ∀ y x, y < H → x < W →
         image_get img' y x
         = Some (if decide (x = 3 ∧ y = 4) then colorLivingCell else colorDeadCell)).
Proof.
  intros (Hlen & _ & _) Hw Hh Hwf Hiw Hih.
  destruct (CopyToImage_spec gr img Hlen Hwf) as (img' & Hcopy & Hwf' & Hw' & Hh' & Hpix);
    [lia..|].
  rewrite Hiw in Hw'. rewrite Hih in Hh'. rewrite Hiw, Hih in Hpix.
  exists img'. do 3 (split; [done|]). split; [exact Hpix|]. split.
  - pose proof (image_pixels_eq gr img' Hwf') as Heq.
    rewrite Hw', Hh' in Heq. by apply Heq.
  - intros Honly y x Hy Hx. rewrite (Hpix y x Hy Hx). unfold pixel_of.
    specialize (Honly y x Hy Hx). f_equal.
    destruct (decide (x = 3 ∧ y = 4)) as [Hd|Hd].
    + by rewrite (proj2 Honly Hd).
    + destruct (alive gr (y + 1) (x + 1)); [|done]. exfalso. by apply Hd, Honly.
Qed.

Lemma single_cell_wf : Grid_wf single_cell.
Proof. repeat split. Qed.

Lemma CopyToImage_projection_witness :
  ∃ img', CopyToImage single_cell (Image_new 4 5 colorDeadCell) = Some img'
    ∧ image_width img' = 4 ∧ image_height img' = 5
    ∧ (∀ y x, y < 5 → x < 4 →
         image_get img' y x
         = Some (if alive single_cell (y + 1) (x + 1)
                 then colorLivingCell else colorDeadCell))
    ∧ pixels img' = (λ p, pixel_of single_cell p.1 p.2) <$> coords (step 5) (step 4)
    ∧ ((∀ y x, y < 5 → x < 4 →
          (alive single_cell (y + 1) (x + 1) = true ↔ x = 3 ∧ y = 4)) →
       ∀ y x, y < 5 → x < 4 →
         image_get img' y x
         = Some (if decide (x = 3 ∧ y = 4) then colorLivingCell else colorDeadCell)).
Proof.
  apply (CopyToImage_projection 4 5 single_cell (Image_new 4 5 colorDeadCell));
    [exact single_cell_wf | reflexivity..].
Defined.

(** C8, as the code has it. [CopyToImage] compares no dimensions and has
    no error of its own: for every image of at most [(W + 1) x (H + 1)]
    pixels, of the field's dimensions or not, it returns the image with
    every pixel [(x, y)] set from the grid cell at row [y + 1] and column
    [x + 1], and with its dimensions kept. *)
Theorem CopyToImage_unchecked (W H : nat) (gr : Grid) (img : Image) :
  Grid_wf gr → width gr = W + 2 → height gr = H + 2 →
  Image_wf img → image_width img ≤ W + 1 → image_height img ≤ H + 1 →
  ∃ img', CopyToImage gr img = Some img'
    ∧ image_width img' = image_width img ∧ image_height img' = image_height img
    ∧ ∀ y x, y < image_height img → x < image_width img →
        image_get img' y x = Some (pixel_of gr y x).
Proof.
  intros (Hlen & _ & _) Hw Hh Hwf Hiw Hih.
  destruct (CopyToImage_spec gr img Hlen Hwf) as (img' & Hcopy & _ & Hw' & Hh' & Hpix);
    [lia..|].
  by exists img'.
Qed.

Lemma blinker_top_wf : Grid_wf blinker_top.
Proof. repeat split. Qed.

Lemma CopyToImage_unchecked_witness :
  ∃ img', CopyToImage blinker_top one_pixel = Some img'
    ∧ image_width img' = image_width one_pixel
    ∧ image_height img' = image_height one_pixel
    ∧ ∀ y x, y < image_height one_pixel → x < image_width one_pixel →
        image_get img' y x = Some (pixel_of blinker_top y x).
Proof.
  apply (CopyToImage_unchecked 3 3 blinker_top one_pixel);
    [exact blinker_top_wf | reflexivity | reflexivity | reflexivity
    | simpl; lia | simpl; lia].
Defined.

(** C8, as the specification words it (a mismatch fails, the image is
    unchanged), does not hold: with the [3 x 3] field of [blinker_top] and
    an image of [1 x 1], [CopyToImage] returns the image, changed. *)
Lemma CopyToImage_mismatch_succeeds :
  width blinker_top = 3 + 2 ∧ height blinker_top = 3 + 2
  ∧ (image_width one_pixel, image_height one_pixel) ≠ (3, 3)
  ∧ CopyToImage blinker_top one_pixel = Some (mkImage 1 1 [colorLivingCell])
  ∧ mkImage 1 1 [colorLivingCell] ≠ one_pixel.
Proof. repeat split; done. Qed.

(** ** Mouse edits *)

Lemma canvas_target (px py : Z) :
  (0 ≤ px ≤ 598)%Z → (0 ≤ py ≤ 598)%Z →
  Rect_mouseOver 0 0 599 (px, py) = true
  ∧ ∃ tx ty, Point_add (Point_div (px, py) 10) (1, 1)%Z = (Z.of_nat tx, Z.of_nat ty)
             ∧ logical fieldWidth fieldHeight ty tx.
Proof.
  intros Hpx Hpy. split.
  { unfold Rect_mouseOver. simpl. rewrite !andb_true_iff.
    rewrite !Z.leb_le, !Z.ltb_lt. lia. }
  assert (0 ≤ px ÷ 10 ≤ 59)%Z as Hqx.
  { rewrite Z.quot_div_nonneg by lia. split.
    - apply Z.div_pos; lia.
    - apply Z.lt_succ_r, Z.div_lt_upper_bound; lia. }
  assert (0 ≤ py ÷ 10 ≤ 59)%Z as Hqy.
  { rewrite Z.quot_div_nonneg by lia. split.
    - apply Z.div_pos; lia.
    - apply Z.lt_succ_r, Z.div_lt_upper_bound; lia. }
  exists (Z.to_nat (px ÷ 10 + 1)), (Z.to_nat (py ÷ 10 + 1)).
  unfold Point_add, Point_div, logical, fieldWidth, fieldHeight. simpl.
  rewrite !Z2Nat.id by lia. split; [done|lia].
Qed.

Lemma grid_set_current_at_logical (gr : Grid) (ty tx : nat) (v : bool) :
  Grid_wf gr → width gr = fieldWidth + 2 → height gr = fieldHeight + 2 →
  logical fieldWidth fieldHeight ty tx →
  ∃ c gr', grid_get gr ty tx = Some c
    ∧ grid_set_current_at gr (Z.of_nat tx, Z.of_nat ty) v = Some gr'
    ∧ Grid_wf gr' ∧ width gr' = width gr ∧ height gr' = height gr
    ∧ grid_get gr' ty tx = Some (mkCell (previous c) v)
    ∧ ∀ y x, in_grid gr y x → (y, x) ≠ (ty, tx) → grid_get gr' y x = grid_get gr y x.
Proof.
  intros Hwf Hw Hh [Hy Hx]. pose proof Hwf as (Hlen & Hwmax & Hhmax).
  unfold fieldWidth, fieldHeight in *.
  destruct (grid_get_is_Some gr ty tx Hlen) as [c Hc]; [unfold in_grid; lia|].
  unfold grid_set_current_at. simpl.
  assert (size_wrap (Z.of_nat ty * Z.of_nat (width gr) + Z.of_nat tx)
          = ty * width gr + tx) as ->.
  { rewrite size_wrap_small; [lia|]. rewrite Hw. unfold size_max. lia. }
  unfold grid_get in Hc. rewrite Hc. simpl.
  assert (ty * width gr + tx < length (data gr)) as Hlt by by eapply lookup_lt_Some.
  exists c. eexists. split; [done|]. split; [done|]. split.
  { unfold Grid_wf. simpl. by rewrite length_insert. }
  do 2 (split; [done|]). split.
  - by apply grid_get_insert_eq.
  - intros y x [Hy' Hx'] Hne. apply grid_get_insert_ne; [lia|lia|congruence].
Qed.

(** C10. For a cursor in the canvas region, the cell a mouse edit indexes,
    [(px / 10 + 1, py / 10 + 1)], is a logical cell of the [62 x 62] grid,
    inside the storage; the edit writes the [current] bit of that cell,
    keeps its [previous] bit and changes no other cell. *)
Theorem mouse_edit_logical (px py : Z) (gr : Grid) :
  (0 ≤ px ≤ 598)%Z → (0 ≤ py ≤ 598)%Z →
  Grid_wf gr → width gr = fieldWidth + 2 → height gr = fieldHeight + 2 →
  ∃ tx ty c,
    Rect_mouseOver 0 0 599 (px, py) = true
    ∧ Point_add (Point_div (px, py) 10) (1, 1)%Z = (Z.of_nat tx, Z.of_nat ty)
    ∧ (1 ≤ tx ≤ 60 ∧ 1 ≤ ty ≤ 60)
    ∧ ¬ padding fieldWidth fieldHeight ty tx
    ∧ grid_get gr ty tx = Some c
    ∧ ∀ v : bool, ∃ gr',
        grid_set_current_at gr (Z.of_nat tx, Z.of_nat ty) v = Some gr'
        ∧ width gr' = width gr ∧ height gr' = height gr
        ∧ grid_get gr' ty tx = Some (mkCell (previous c) v)
        ∧ (∀ y x, in_grid gr y x → (y, x) ≠ (ty, tx) →
             grid_get gr' y x = grid_get gr y x)
        ∧ (∀ inp s, cursorPos inp = (px, py) → grid s = gr →
             (if v then mouseL inp = true
              else mouseL inp = false ∧ mouseR inp = true) →
             frame_edit inp s = Some (mkState gr' (image s) (rng s) true)).
Proof.
  intros Hpx Hpy Hwf Hw Hh.
  destruct (canvas_target px py Hpx Hpy) as (Hover & tx & ty & Htarget & Hlog).
  destruct (grid_set_current_at_logical gr ty tx true Hwf Hw Hh Hlog)
    as (c & _ & Hc & _).
  exists tx, ty, c. do 2 (split; [done|]). split.
  { destruct Hlog. unfold fieldWidth, fieldHeight in *. lia. }
  split; [by intros (_ & _ & Hnot)|]. split; [done|].
  intros v.
  destruct (grid_set_current_at_logical gr ty tx v Hwf Hw Hh Hlog)
    as (c' & gr' & Hc' & Hset & _ & Hw' & Hh' & Hget & Hother).
  assert (c' = c) as -> by congruence.
  exists gr'. do 5 (split; [done|]).
  intros inp s Hcur <- Hbutton. unfold frame_edit.
  rewrite Hcur, Hover, Htarget.
  destruct v.
  - rewrite Hbutton, Hset. done.
  - destruct Hbutton as [-> ->]. rewrite Hset. done.
Qed.

Lemma mouse_edit_logical_witness :
  ∃ tx ty c,
    Rect_mouseOver 0 0 599 (598, 5)%Z = true
    ∧ Point_add (Point_div (598, 5)%Z 10) (1, 1)%Z = (Z.of_nat tx, Z.of_nat ty)
    ∧ (1 ≤ tx ≤ 60 ∧ 1 ≤ ty ≤ 60)
    ∧ ¬ padding fieldWidth fieldHeight ty tx
    ∧ grid_get (Grid_new 62 62 dead) ty tx = Some c
    ∧ ∀ v : bool, ∃ gr',
        grid_set_current_at (Grid_new 62 62 dead) (Z.of_nat tx, Z.of_nat ty) v = Some gr'
        ∧ width gr' = width (Grid_new 62 62 dead)
        ∧ height gr' = height (Grid_new 62 62 dead)
        ∧ grid_get gr' ty tx = Some (mkCell (previous c) v)
        ∧ (∀ y x, in_grid (Grid_new 62 62 dead) y x → (y, x) ≠ (ty, tx) →
             grid_get gr' y x = grid_get (Grid_new 62 62 dead) y x)
        ∧ (∀ inp s, cursorPos inp = (598, 5)%Z → grid s = Grid_new 62 62 dead →
             (if v then mouseL inp = true
              else mouseL inp = false ∧ mouseR inp = true) →
             frame_edit inp s = Some (mkState gr' (image s) (rng s) true)).
Proof.
  apply (mouse_edit_logical 598 5 (Grid_new 62 62 dead));
    [lia | lia | repeat split | reflexivity | reflexivity].
Defined.

(** ** The frame loop keeps the padding dead *)

Lemma frame_random_inv (inp : Input) (s : State) :
  Main_inv s → ∃ s', frame_random inp s = Some s' ∧ Main_inv s'.
Proof.
  intros Hinv. pose proof Hinv as (Hwf & Hw & Hh & Hpad & Himg). unfold frame_random.
  destruct (buttonRandom inp); [|by exists s].
  destruct (FillRandom_spec fieldWidth fieldHeight (grid s) (rng s) Hwf Hw Hh)
    as (gr' & rn' & -> & Hwf' & Hw' & Hh' & _ & Hpad' & _).
  simpl. eexists. split; [done|].
  unfold Main_inv. simpl. do 3 (split; [done|]). split; [exact Hpad'|done].
Qed.

Lemma frame_clear_inv (inp : Input) (s : State) :
  Main_inv s → ∃ s', frame_clear inp s = Some s' ∧ Main_inv s'.
Proof.
  intros Hinv. pose proof Hinv as (Hwf & Hw & Hh & Hpad & Himg). unfold frame_clear.
  destruct (buttonClear inp); [|by exists s].
  eexists. split; [done|]. destruct Hwf as (Hlen & Hwmax & Hhmax).
  unfold Main_inv, Grid_wf. simpl. rewrite length_fmap.
  do 3 (split; [done|]). split; [|done].
  intros y x Hp. unfold grid_get. simpl. rewrite list_lookup_fmap.
  destruct (grid_get_is_Some (grid s) y x Hlen) as [c Hc];
    [by eapply padding_in_grid|].
  unfold grid_get in Hc. by rewrite Hc.
Qed.

Lemma frame_update_inv (inp : Input) (s : State) :
  Main_inv s → ∃ s', frame_update inp s = Some s' ∧ Main_inv s'.
Proof.
  intros Hinv. pose proof Hinv as (Hwf & Hw & Hh & Hpad & Himg). unfold frame_update.
  destruct (buttonUpdate inp); [|by exists s].
  destruct (Update_spec fieldWidth fieldHeight (grid s) Hwf Hw Hh)
    as (gr' & Hup & Hwf' & Hw' & Hh' & _).
  rewrite Hup. simpl. eexists. split; [done|].
  unfold Main_inv. simpl. do 3 (split; [done|]). split; [|done].
  exact (Update_padding _ _ _ _ Hwf Hw Hh Hpad Hup).
Qed.

Lemma frame_edit_inv (inp : Input) (s : State) :
  Main_inv s → ∃ s', frame_edit inp s = Some s' ∧ Main_inv s'.
Proof.
  intros Hinv. pose proof Hinv as (Hwf & Hw & Hh & Hpad & Himg). unfold frame_edit.
  destruct (Rect_mouseOver 0 0 599 (cursorPos inp)) eqn:Hover; [|by exists s].
  destruct (cursorPos inp) as [px py].
  unfold Rect_mouseOver in Hover. simpl in Hover.
  rewrite !andb_true_iff, !Z.leb_le, !Z.ltb_lt in Hover.
  destruct (canvas_target px py) as (_ & tx & ty & -> & Hlog); [lia..|].
  assert (∀ v, ∃ s', (gr' ← grid_set_current_at (grid s) (Z.of_nat tx, Z.of_nat ty) v;
                      Some (mkState gr' (image s) (rng s) true)) = Some s'
                     ∧ Main_inv s') as Hedit.
  { intros v.
    destruct (grid_set_current_at_logical (grid s) ty tx v Hwf Hw Hh Hlog)
      as (c & gr' & Hc & -> & Hwf' & Hw' & Hh' & _ & Hother).
    simpl. eexists. split; [done|].
    unfold Main_inv. simpl. split; [done|].
    split; [by rewrite Hw'|]. split; [by rewrite Hh'|].
    split; [|done]. intros y x Hp. rewrite Hother.
    - by apply Hpad.
    - by eapply padding_in_grid.
    - intros [= -> ->]. by destruct Hp as (_ & _ & Hnot). }
  destruct (mouseL inp); [apply Hedit|].
  destruct (mouseR inp); [apply Hedit|]. by exists s.
Qed.

Lemma frame_render_inv (s : State) :
  Main_inv s → ∃ s', frame_render s = Some s' ∧ Main_inv s'.
Proof.
  intros Hinv. pose proof Hinv as (Hwf & Hw & Hh & Hpad & Hiwf & Hiw & Hih).
  unfold frame_render. destruct (doesUpdate s); [|by exists s].
  destruct (CopyToImage_spec (grid s) (image s)) as (img' & -> & Hwf' & Hw' & Hh' & _);
    [apply Hwf|done|lia..|].
  simpl. eexists. split; [done|].
  unfold Main_inv. simpl. do 4 (split; [done|]). split; [done|]. split; congruence.
Qed.

Lemma Main_frame_inv (inp : Input) (s : State) :
  Main_inv s → ∃ s', Main_frame inp s = Some s' ∧ Main_inv s'.
Proof.
  intros Hinv. unfold Main_frame.
  destruct (frame_random_inv inp s Hinv) as (s1 & -> & H1). simpl.
  destruct (frame_clear_inv inp s1 H1) as (s2 & -> & H2). simpl.
  destruct (frame_update_inv inp s2 H2) as (s3 & -> & H3). simpl.
  destruct (frame_edit_inv inp s3 H3) as (s4 & -> & H4). simpl.
  by apply frame_render_inv.
Qed.

Lemma Main_loop_inv (inps : list Input) (s : State) :
  Main_inv s → ∃ s', Main_loop inps s = Some s' ∧ Main_inv s'.
Proof.
  intros Hinv. unfold Main_loop.
  apply (foldM_invariant Main_frame (λ _, Main_inv)); [done|].
  intros _ inp _ s0 _ Hs0. by apply Main_frame_inv.
Qed.

Lemma Grid_new_get (w h : nat) (c : Cell) (y x : nat) :
  y < h → x < w → grid_get (Grid_new w h c) y x = Some c.
Proof.
  intros Hy Hx. unfold grid_get, Grid_new. cbn [data width].
  apply lookup_replicate_2. by apply flat_lt.
Qed.

Lemma Grid_new_wf (w h : nat) (c : Cell) :
  (Z.of_nat w < size_max)%Z → (Z.of_nat h < size_max)%Z → Grid_wf (Grid_new w h c).
Proof.
  intros Hw Hh. unfold Grid_wf, Grid_new. cbn [data width height].
  by rewrite length_replicate.
Qed.

Lemma Image_new_wf (w h : nat) (c : Color) : Image_wf (Image_new w h c).
Proof.
  unfold Image_wf, Image_new. cbn [pixels image_width image_height].
  by rewrite length_replicate.
Qed.

Lemma Main_init_inv (r0 : Rng) : Main_inv (Main_init r0).
Proof.
  unfold Main_inv, Main_init. cbn [grid image].
  split; [by apply Grid_new_wf|]. do 2 (split; [done|]).
  split; [|split; [apply Image_new_wf|done]].
  intros y x (Hy & Hx & _). by apply Grid_new_get.
Qed.

(** C2. From a grid whose padding cells are all [{ 0, 0 }], any number of
    calls of [Update] leaves every padding cell [{ 0, 0 }]; and in [Main],
    whose grid starts that way, no sequence of frames (random fill, clear,
    step, mouse edits, rendering) ever makes a padding cell differ from
    [{ 0, 0 }]. *)
Theorem padding_invariant (W H : nat) (gi : Grid) :
  Grid_wf gi → width gi = W + 2 → height gi = H + 2 → padding_dead W H gi →
  (∀ n, ∃ gr', Update_iter n gi = Some gr'
               ∧ ∀ y x, padding W H y x →
                   ∃ c, grid_get gr' y x = Some c
                        ∧ current c = false ∧ previous c = false)
  ∧ (∀ r0, Main_inv (Main_init r0))
  ∧ (∀ inps s, Main_inv s →
       ∃ s', Main_loop inps s = Some s' ∧ Main_inv s'
             ∧ padding_dead fieldWidth fieldHeight (grid s')).
Proof.
  intros Hwf Hw Hh Hpad. split; [|split].
  - intros n.
    destruct (Update_iter_padding W H n gi Hwf Hw Hh Hpad) as (gr' & -> & _ & _ & _ & Hp).
    exists gr'. split; [done|]. intros y x Hyx. rewrite (Hp y x Hyx). by eexists.
  - apply Main_init_inv.
  - intros inps s Hinv.
    destruct (Main_loop_inv inps s Hinv) as (s' & -> & Hinv').
    exists s'. do 2 (split; [done|]). apply Hinv'.
Qed.

Lemma blinker_row_padding : padding_dead 3 3 blinker_row.
Proof.
  intros y x (Hy & Hx & Hnot). unfold logical in Hnot.
  do 5 (destruct y as [|y]; [do 5 (destruct x as [|x]; [done || lia|]); lia|]).
  lia.
Qed.

Lemma padding_invariant_witness :
  (∀ n, ∃ gr', Update_iter n blinker_row = Some gr'
               ∧ ∀ y x, padding 3 3 y x →
                   ∃ c, grid_get gr' y x = Some c
                        ∧ current c = false ∧ previous c = false)
  ∧ (∀ r0, Main_inv (Main_init r0))
  ∧ (∀ inps s, Main_inv s →
       ∃ s', Main_loop inps s = Some s' ∧ Main_inv s'
             ∧ padding_dead fieldWidth fieldHeight (grid s')).
Proof.
  apply (padding_invariant 3 3 blinker_row);
    [exact blinker_row_wf | reflexivity | reflexivity | exact blinker_row_padding].
Defined.

(** * Further properties *)

(** ** Grids are determined by their cells *)

Lemma flat_index_split (w h i : nat) :
  i < h * w → ∃ y x, y < h ∧ x < w ∧ i = y * w + x.
Proof.
  intros Hlt. assert (0 < w) as Hpos by nia.
  exists (i `div` w), (i `mod` w).
  pose proof (Nat.div_mod_eq i w). pose proof (Nat.mod_upper_bound i w).
  split; [apply Nat.Div0.div_lt_upper_bound; lia|]. split; lia.
Qed.

Lemma grid_ext (g1 g2 : Grid) :
  width g1 = width g2 → height g1 = height g2 →
  length (data g1) = height g1 * width g1 →
  length (data g2) = height g2 * width g2 →
  (∀ y x, in_grid g1 y x → grid_get g1 y x = grid_get g2 y x) →
  g1 = g2.
Proof.
  destruct g1 as [w1 h1 d1], g2 as [w2 h2 d2]. unfold in_grid, grid_get. simpl.
  intros <- <- Hl1 Hl2 Hcells. f_equal. apply list_eq. intros i.
  destruct (decide (i < h1 * w1)) as [Hlt|Hge].
  - destruct (flat_index_split w1 h1 i Hlt) as (y & x & Hy & Hx & ->).
    by apply Hcells.
  - rewrite !lookup_ge_None_2; [done|lia..].
Qed.

Lemma Grid_tabulate_get (w h : nat) (f : nat → nat → Cell) (y x : nat) :
  y < h → x < w → grid_get (Grid_tabulate w h f) y x = Some (f y x).
Proof.
  intros Hy Hx. unfold grid_get, Grid_tabulate. cbn [data width].
  by rewrite list_lookup_fmap, coords_lookup.
Qed.

Lemma Grid_tabulate_length (w h : nat) (f : nat → nat → Cell) :
  length (data (Grid_tabulate w h f)) = h * w.
Proof.
  unfold Grid_tabulate. cbn [data].
  by rewrite length_fmap, coords_length, !length_seq.
Qed.

Lemma Grid_fill_get (gr : Grid) (c : Cell) (y x : nat) :
  length (data gr) = height gr * width gr → in_grid gr y x →
  grid_get (Grid_fill gr c) y x = Some c.
Proof.
  intros Hlen Hin. destruct (grid_get_is_Some gr y x Hlen Hin) as [c0 Hc0].
  unfold grid_get, Grid_fill in *. cbn [data width].
  by rewrite list_lookup_fmap, Hc0.
Qed.

(** ** Update on particular generations *)

Lemma neighborCount_dead (gr : Grid) (y x : nat) :
  alive gr (y - 1) (x - 1) = false → alive gr (y - 1) x = false →
  alive gr (y - 1) (x + 1) = false → alive gr y (x - 1) = false →
  alive gr y (x + 1) = false → alive gr (y + 1) (x - 1) = false →
  alive gr (y + 1) x = false → alive gr (y + 1) (x + 1) = false →
  neighborCount gr y x = 0.
Proof. unfold neighborCount. by intros -> -> -> -> -> -> -> ->. Qed.

Lemma Update_no_life (gr : Grid) :
  Grid_wf gr → 2 ≤ width gr → 2 ≤ height gr →
  (∀ y x, in_grid gr y x → alive gr y x = false) →
  Update gr = Some (Grid_fill gr dead).
Proof.
  intros Hwf Hw Hh Hdead.
  destruct (Update_spec (width gr - 2) (height gr - 2) gr Hwf)
    as (gr' & -> & Hwf' & Hw' & Hh' & Hcells); [lia..|].
  f_equal. destruct Hwf as (Hlen & _). destruct Hwf' as (Hlen' & _).
  apply grid_ext.
  - simpl. lia.
  - simpl. lia.
  - done.
  - unfold Grid_fill. cbn [data width height]. by rewrite length_fmap.
  - intros y x Hin. assert (in_grid gr y x) as Hin'.
    { unfold in_grid in *. lia. }
    rewrite (Hcells y x Hin'), Grid_fill_get, (Hdead y x Hin') by done.
    case_decide as Hlog; [|done]. destruct Hlog as [Hy Hx].
    rewrite neighborCount_dead; [done|apply Hdead; unfold in_grid; lia..].
Qed.

Lemma alive_Grid_fill (gr : Grid) (y x : nat) : alive (Grid_fill gr dead) y x = false.
Proof.
  unfold alive, grid_get, Grid_fill. cbn [data width].
  rewrite list_lookup_fmap. by destruct (data gr !! _).
Qed.

Lemma Grid_fill_wf (gr : Grid) (c : Cell) : Grid_wf gr → Grid_wf (Grid_fill gr c).
Proof.
  intros (Hlen & Hw & Hh). unfold Grid_wf, Grid_fill. cbn [data width height].
  by rewrite length_fmap.
Qed.

Lemma Update_cleared (gr : Grid) :
  Grid_wf gr → 2 ≤ width gr → 2 ≤ height gr →
  Update (Grid_fill gr dead) = Some (Grid_fill gr dead).
Proof.
  intros Hwf Hw Hh.
  assert (Grid_fill (Grid_fill gr dead) dead = Grid_fill gr dead) as Hidem.
  { unfold Grid_fill. cbn [data width height]. f_equal.
    by rewrite <- list_fmap_compose. }
  rewrite <- Hidem at 2. apply Update_no_life; [by apply Grid_fill_wf|done|done|].
  intros y x _. apply alive_Grid_fill.
Qed.

(** X1. A generation without live cells stays without live cells: on a grid
    whose [current] bits are all false, [Update] returns the grid with every
    cell [{ 0, 0 }] (stale [previous] bits are cleared too). In particular a
    step after a clear gives the cleared grid. *)
Theorem Update_empty (gi : Grid) :
  Grid_wf gi → 2 ≤ width gi → 2 ≤ height gi →
  (∀ y x, in_grid gi y x → alive gi y x = false) →
  Update gi = Some (Grid_fill gi dead)
  ∧ Update (Grid_fill gi dead) = Some (Grid_fill gi dead).
Proof.
  intros Hwf Hw Hh Hdead. split; [by apply Update_no_life|by apply Update_cleared].
Qed.

Lemma Update_empty_witness :
  Update (Grid_new 5 5 (mkCell true false))
  = Some (Grid_fill (Grid_new 5 5 (mkCell true false)) dead)
  ∧ Update (Grid_fill (Grid_new 5 5 (mkCell true false)) dead)
    = Some (Grid_fill (Grid_new 5 5 (mkCell true false)) dead).
Proof.
  apply (Update_empty (Grid_new 5 5 (mkCell true false)));
    [repeat split | simpl; lia | simpl; lia |].
  intros y x [Hy Hx]. unfold alive. rewrite Grid_new_get by done. done.
Defined.

(** X2. [Update] stores in every cell's [previous] bit the [current] bit
    the cell had, and it never changes the [current] bit of a cell of the
    border ring, dead or alive: after any number of calls the ring holds
    the [current] bits it started with. *)
Theorem Update_border_kept (W H : nat) (gi : Grid) :
  Grid_wf gi → width gi = W + 2 → height gi = H + 2 →
  (∀ gr', Update gi = Some gr' →
     ∀ y x, in_grid gi y x →
       ∃ c', grid_get gr' y x = Some c' ∧ previous c' = alive gi y x)
  ∧ (∀ n, ∃ gr', Update_iter n gi = Some gr'
        ∧ ∀ y x, padding W H y x → alive gr' y x = alive gi y x).
Proof.
  intros Hwf Hw Hh. split.
  - intros gr' Hup y x Hin.
    destruct (Update_spec W H gi Hwf Hw Hh) as (gr & Hup' & _ & _ & _ & Hcells).
    assert (gr = gr') as -> by congruence.
    rewrite (Hcells y x Hin). by eexists.
  - intros n. revert gi Hwf Hw Hh. induction n as [|n IH]; intros gi Hwf Hw Hh.
    + exists gi. done.
    + simpl. destruct (Update_spec W H gi Hwf Hw Hh) as (g1 & Hup & Hwf1 & Hw1 & Hh1 & _).
      rewrite Hup. simpl. destruct (IH g1 Hwf1 Hw1 Hh1) as (gr' & Hiter & Hring).
      exists gr'. split; [done|]. intros y x Hp. rewrite (Hring y x Hp).
      rewrite (Update_alive W H gi g1 y x Hwf Hw Hh Hup) by by eapply padding_in_grid.
      by rewrite decide_False by apply Hp.
Qed.

Lemma Update_border_kept_witness :
  (∀ gr', Update live_corner = Some gr' →
     ∀ y x, in_grid live_corner y x →
       ∃ c', grid_get gr' y x = Some c' ∧ previous c' = alive live_corner y x)
  ∧ (∀ n, ∃ gr', Update_iter n live_corner = Some gr'
        ∧ ∀ y x, padding 1 1 y x → alive gr' y x = alive live_corner y x).
Proof.
  apply (Update_border_kept 1 1 live_corner);
    [exact live_corner_wf | reflexivity | reflexivity].
Defined.

Ltac rule_cases :=
  intros r c [Hr Hc]; unfold block, single;
  repeat (case_bool_decide; try lia); reflexivity.

(** X3. The block is a still life: a [2 x 2] square of live logical cells
    on an otherwise empty grid, anywhere in the field (the edges and corners
    included), is the same after [Update]. *)
Theorem block_still (W H x y : nat) (gi : Grid) :
  Grid_wf gi → width gi = W + 2 → height gi = H + 2 →
  x + 2 ≤ W → y + 2 ≤ H →
  (∀ r c, in_grid gi r c → (alive gi r c = true ↔ block x y r c)) →
  ∃ g1, Update gi = Some g1
        ∧ ∀ r c, in_grid gi r c → (alive g1 r c = true ↔ block x y r c).
Proof.
  intros Hwf Hw Hh Hx Hy Hblock.
  destruct (Update_spec W H gi Hwf Hw Hh) as (g1 & Hup & _).
  exists g1. split; [done|].
  pose proof (proj1 (alive_bool_decide gi (block x y)) Hblock) as Hblock'.
  intros r c Hin.
  assert (alive g1 r c = bool_decide (block x y r c)) as ->;
    [|apply bool_decide_eq_true].
  revert r c Hin.
  apply (rule_blinker_cases W H gi g1 (block x y) (block x y)); try done.
  - unfold block, logical. lia.
  - unfold block, logical. lia.
  - rule_cases.
Qed.

Lemma block_corner_wf : Grid_wf block_corner.
Proof. repeat split. Qed.

Lemma block_still_witness :
  ∃ g1, Update block_corner = Some g1
        ∧ ∀ r c, in_grid block_corner r c → (alive g1 r c = true ↔ block 0 0 r c).
Proof.
  apply (block_still 3 3 0 0 block_corner);
    [exact block_corner_wf | reflexivity | reflexivity | lia | lia |].
  intros r c [Hr Hc]. simpl in Hr, Hc. unfold block.
  do 5 (destruct r as [|r];
        [do 5 (destruct c as [|c]; [vm_compute; split; intros ?; (done || lia)|]); lia|]).
  lia.
Defined.

(** X4. A live cell without live neighbours dies, wherever it is in the
    field: on the edges and in the corners the missing neighbours are cells
    of the dead border ring. After [Update] no cell of the grid is alive. *)
Theorem lonely_cell_dies (W H x y : nat) (gi : Grid) :
  Grid_wf gi → width gi = W + 2 → height gi = H + 2 →
  x < W → y < H →
  (∀ r c, in_grid gi r c → (alive gi r c = true ↔ single x y r c)) →
  ∃ g1, Update gi = Some g1 ∧ ∀ r c, in_grid gi r c → alive g1 r c = false.
Proof.
  intros Hwf Hw Hh Hx Hy Hsingle.
  destruct (Update_spec W H gi Hwf Hw Hh) as (g1 & Hup & _).
  exists g1. split; [done|].
  pose proof (proj1 (alive_bool_decide gi (single x y)) Hsingle) as Hsingle'.
  assert (∀ r c, in_grid gi r c → alive g1 r c = bool_decide False) as Hdead;
    [|exact Hdead].
  apply (rule_blinker_cases W H gi g1 (single x y) (λ _ _, False)); try done.
  - unfold single, logical. lia.
  - rule_cases.
Qed.

Lemma lonely_corner_wf : Grid_wf lonely_corner.
Proof. repeat split. Qed.

Lemma lonely_cell_dies_witness :
  ∃ g1, Update lonely_corner = Some g1
        ∧ ∀ r c, in_grid lonely_corner r c → alive g1 r c = false.
Proof.
  apply (lonely_cell_dies 3 3 2 2 lonely_corner);
    [exact lonely_corner_wf | reflexivity | reflexivity | lia | lia |].
  intros r c [Hr Hc]. simpl in Hr, Hc. unfold single.
  do 5 (destruct r as [|r];
        [do 5 (destruct c as [|c]; [vm_compute; split; intros ?; (done || lia)|]); lia|]).
  lia.
Defined.

(** ** How far a generation reaches *)

Lemma rule_false_0 : rule false 0 = false.
Proof. done. Qed.

(** X5. Life spreads by at most one cell per step: if every live cell of
    the grid lies in the rows [r1..r2] and the columns [c1..c2], then after
    [Update] every live cell lies in the rows [r1-1..r2+1] and the columns
    [c1-1..c2+1]. *)
Theorem Update_bounding_box (W H r1 r2 c1 c2 : nat) (gi : Grid) :
  Grid_wf gi → width gi = W + 2 → height gi = H + 2 →
  (∀ r c, in_grid gi r c → alive gi r c = true → r1 ≤ r ≤ r2 ∧ c1 ≤ c ≤ c2) →
  ∃ g1, Update gi = Some g1
        ∧ ∀ r c, in_grid gi r c → alive g1 r c = true →
            r1 - 1 ≤ r ≤ r2 + 1 ∧ c1 - 1 ≤ c ≤ c2 + 1.
Proof.
  intros Hwf Hw Hh Hbox.
  destruct (Update_spec W H gi Hwf Hw Hh) as (g1 & Hup & _).
  exists g1. split; [done|]. intros r c Hin.
  rewrite (Update_alive W H gi g1 r c Hwf Hw Hh Hup Hin).
  assert (∀ r' c', in_grid gi r' c' → ¬ (r1 ≤ r' ≤ r2 ∧ c1 ≤ c' ≤ c2) →
            alive gi r' c' = false) as Hout.
  { intros r' c' Hin' Hnot. destruct (alive gi r' c') eqn:Hal; [|done].
    exfalso. by apply Hnot, Hbox. }
  destruct (decide (logical W H r c)) as [[Hr Hc]|Hnot].
  - destruct (decide (r1 - 1 ≤ r ≤ r2 + 1 ∧ c1 - 1 ≤ c ≤ c2 + 1)) as [|Hfar]; [done|].
    rewrite (Hout r c Hin) by lia.
    rewrite neighborCount_dead; [done|..]; (apply Hout; [unfold in_grid; lia|lia]).
  - intros Hal. specialize (Hbox r c Hin Hal). lia.
Qed.

Lemma Update_bounding_box_witness :
  ∃ g1, Update blinker_row = Some g1
        ∧ ∀ r c, in_grid blinker_row r c → alive g1 r c = true →
            2 - 1 ≤ r ≤ 2 + 1 ∧ 1 - 1 ≤ c ≤ 3 + 1.
Proof.
  apply (Update_bounding_box 3 3 2 2 1 3 blinker_row);
    [exact blinker_row_wf | reflexivity | reflexivity |].
  intros r c [Hr Hc]. simpl in Hr, Hc.
  do 5 (destruct r as [|r];
        [do 5 (destruct c as [|c]; [vm_compute; intros ?; (done || lia)|]); lia|]).
  lia.
Defined.

(** X6. The next state of a logical cell depends only on the [current]
    bits of the cell and of its eight neighbours: two grids of the same
    dimensions that agree on these nine bits agree, after [Update], on the
    cell's [current] bit. *)
Theorem Update_local (W H : nat) (ga gb : Grid) (y x : nat) :
  Grid_wf ga → width ga = W + 2 → height ga = H + 2 →
  Grid_wf gb → width gb = W + 2 → height gb = H + 2 →
  logical W H y x →
  (∀ r c, y - 1 ≤ r ≤ y + 1 → x - 1 ≤ c ≤ x + 1 → alive ga r c = alive gb r c) →
  ∃ ga' gb', Update ga = Some ga' ∧ Update gb = Some gb'
             ∧ alive ga' y x = alive gb' y x.
Proof.
  intros Hwfa Hwa Hha Hwfb Hwb Hhb Hlog Hagree.
  destruct (Update_spec W H ga Hwfa Hwa Hha) as (ga' & Hupa & _).
  destruct (Update_spec W H gb Hwfb Hwb Hhb) as (gb' & Hupb & _).
  exists ga', gb'. do 2 (split; [done|]).
  pose proof Hlog as [Hy Hx].
  rewrite (Update_alive W H ga ga' y x Hwfa Hwa Hha Hupa) by (unfold in_grid; lia).
  rewrite (Update_alive W H gb gb' y x Hwfb Hwb Hhb Hupb) by (unfold in_grid; lia).
  rewrite !decide_True by done. unfold neighborCount.
  rewrite !Hagree by lia. done.
Qed.

Lemma Update_local_witness :
  ∃ ga' gb', Update blinker_top = Some ga' ∧ Update lonely_corner = Some gb'
             ∧ alive ga' 3 1 = alive gb' 3 1.
Proof.
  apply (Update_local 3 3 blinker_top lonely_corner 3 1);
    [exact blinker_top_wf | reflexivity | reflexivity
    | exact lonely_corner_wf | reflexivity | reflexivity | unfold logical; lia |].
  intros r c Hr Hc.
  assert (r = 2 ∨ r = 3 ∨ r = 4) as [->|[->| ->]] by lia;
    (assert (c = 0 ∨ c = 1 ∨ c = 2) as [->|[->| ->]] by lia); reflexivity.
Defined.

(** ** Update and the symmetries of the grid *)

Lemma alive_cell (gr : Grid) (y x : nat) : current (cell gr y x) = alive gr y x.
Proof. unfold cell, alive. by destruct (grid_get gr y x). Qed.

Lemma Grid_tabulate_wf (w h : nat) (f : nat → nat → Cell) :
  (Z.of_nat w < size_max)%Z → (Z.of_nat h < size_max)%Z →
  Grid_wf (Grid_tabulate w h f).
Proof.
  intros Hw Hh. split; [|done]. by rewrite Grid_tabulate_length.
Qed.

Lemma Grid_tabulate_alive (w h : nat) (f : nat → nat → Cell) (y x : nat) :
  y < h → x < w → alive (Grid_tabulate w h f) y x = current (f y x).
Proof. intros Hy Hx. unfold alive. by rewrite Grid_tabulate_get. Qed.

(** [Update] commutes with a change of coordinates [φ] that maps the cells
    of [gt] to cells of [gi] with the same state and the same neighbours. *)
Lemma Update_symmetry (W H W' H' : nat) (gi gt : Grid) (φ : nat → nat → nat * nat) :
  Grid_wf gi → width gi = W + 2 → height gi = H + 2 →
  Grid_wf gt → width gt = W' + 2 → height gt = H' + 2 →
  (∀ y x, in_grid gt y x → in_grid gi (φ y x).1 (φ y x).2) →
  (∀ y x, in_grid gt y x → alive gt y x = alive gi (φ y x).1 (φ y x).2) →
  (∀ y x, in_grid gt y x → (logical W' H' y x ↔ logical W H (φ y x).1 (φ y x).2)) →
  (∀ y x, logical W' H' y x →
     neighborCount gt y x = neighborCount gi (φ y x).1 (φ y x).2) →
  ∃ g1 g2, Update gi = Some g1 ∧ Update gt = Some g2
    ∧ Grid_wf g1 ∧ Grid_wf g2
    ∧ width g1 = width gi ∧ height g1 = height gi
    ∧ width g2 = width gt ∧ height g2 = height gt
    ∧ ∀ y x, in_grid gt y x → grid_get g2 y x = grid_get g1 (φ y x).1 (φ y x).2.
Proof.
  intros Hwf Hw Hh Hwft Hwt Hht Hin Halive Hlog Hcount.
  destruct (Update_spec W H gi Hwf Hw Hh) as (g1 & Hup1 & Hwf1 & Hw1 & Hh1 & Hcells1).
  destruct (Update_spec W' H' gt Hwft Hwt Hht)
    as (g2 & Hup2 & Hwf2 & Hw2 & Hh2 & Hcells2).
  exists g1, g2. do 4 (split; [done|]). do 4 (split; [congruence|]).
  intros y x Hyx. rewrite (Hcells2 y x Hyx), (Hcells1 _ _ (Hin y x Hyx)).
  rewrite (Halive y x Hyx). do 2 f_equal.
  destruct (decide (logical W' H' y x)) as [Hl|Hl].
  - rewrite decide_True by by apply Hlog. by rewrite (Hcount y x Hl).
  - rewrite decide_False; [done|]. intros Hl'. by apply Hl, Hlog.
Qed.

Ltac neighbour_sum Hal :=
  unfold neighborCount; rewrite !Hal by (unfold in_grid; lia); cbn [fst snd].

(** X7. [Update] has no left-right and no up-down bias: the step of the
    mirror image of a grid is the mirror image of its step, for both
    mirror images. *)
Theorem Update_flip (gi : Grid) :
  Grid_wf gi → 2 ≤ width gi → 2 ≤ height gi →
  Update (flip_horizontal gi) = flip_horizontal <$> Update gi
  ∧ Update (flip_vertical gi) = flip_vertical <$> Update gi.
Proof.
  intros Hwf Hw Hh. pose proof Hwf as (Hlen & Hwmax & Hhmax).
  set (W := width gi - 2). set (H := height gi - 2).
  assert (width gi = W + 2) as HW by (unfold W; lia).
  assert (height gi = H + 2) as HH by (unfold H; lia).
  split.
  - assert (∀ y x, in_grid (flip_horizontal gi) y x →
              alive (flip_horizontal gi) y x = alive gi y (width gi - 1 - x)) as Hal.
    { intros y x [Hy Hx]. unfold flip_horizontal.
      rewrite Grid_tabulate_alive by done. apply alive_cell. }
    destruct (Update_symmetry W H W H gi (flip_horizontal gi)
                (λ y x, (y, width gi - 1 - x)))
      as (g1 & g2 & -> & -> & Hwf1 & Hwf2 & Hw1 & Hh1 & Hw2 & Hh2 & Hcells);
      try done.
    + by apply Grid_tabulate_wf.
    + intros y x [Hy Hx]. unfold in_grid in *. simpl in *. lia.
    + intros y x [Hy Hx]. unfold logical. simpl in *. lia.
    + intros y x [Hy Hx]. cbn [fst snd].
      unfold flip_horizontal, in_grid in Hal. cbn [width height Grid_tabulate] in Hal.
      neighbour_sum Hal.
      replace (width gi - 1 - (x - 1)) with (width gi - 1 - x + 1) by lia.
      replace (width gi - 1 - (x + 1)) with (width gi - 1 - x - 1) by lia.
      lia.
    + simpl. f_equal.
      change (width g2 = width gi) in Hw2. change (height g2 = height gi) in Hh2.
      apply grid_ext; [by etrans|by etrans|apply Hwf2|apply Grid_tabulate_length|].
      intros y x Hin. pose proof Hin as [Hy Hx].
      rewrite Hcells by (unfold in_grid in *; simpl; lia). cbn [fst snd].
      unfold flip_horizontal. rewrite Grid_tabulate_get by lia.
      rewrite Hw1. unfold cell.
      destruct (grid_get_is_Some g1 y (width gi - 1 - x)) as [c ->];
        [apply Hwf1|unfold in_grid; lia|done].
  - assert (∀ y x, in_grid (flip_vertical gi) y x →
              alive (flip_vertical gi) y x = alive gi (height gi - 1 - y) x) as Hal.
    { intros y x [Hy Hx]. unfold flip_vertical.
      rewrite Grid_tabulate_alive by done. apply alive_cell. }
    destruct (Update_symmetry W H W H gi (flip_vertical gi)
                (λ y x, (height gi - 1 - y, x)))
      as (g1 & g2 & -> & -> & Hwf1 & Hwf2 & Hw1 & Hh1 & Hw2 & Hh2 & Hcells);
      try done.
    + by apply Grid_tabulate_wf.
    + intros y x [Hy Hx]. unfold in_grid in *. simpl in *. lia.
    + intros y x [Hy Hx]. unfold logical. simpl in *. lia.
    + intros y x [Hy Hx]. cbn [fst snd].
      unfold flip_vertical, in_grid in Hal. cbn [width height Grid_tabulate] in Hal.
      neighbour_sum Hal.
      replace (height gi - 1 - (y - 1)) with (height gi - 1 - y + 1) by lia.
      replace (height gi - 1 - (y + 1)) with (height gi - 1 - y - 1) by lia.
      lia.
    + simpl. f_equal.
      change (width g2 = width gi) in Hw2. change (height g2 = height gi) in Hh2.
      apply grid_ext; [by etrans|by etrans|apply Hwf2|apply Grid_tabulate_length|].
      intros y x Hin. pose proof Hin as [Hy Hx].
      rewrite Hcells by (unfold in_grid in *; simpl; lia). cbn [fst snd].
      unfold flip_vertical. rewrite Grid_tabulate_get by lia.
      rewrite Hh1. unfold cell.
      destruct (grid_get_is_Some g1 (height gi - 1 - y) x) as [c ->];
        [apply Hwf1|unfold in_grid; lia|done].
Qed.

Lemma ell_wf : Grid_wf ell.
Proof. repeat split. Qed.

Lemma Update_flip_witness :
  Update (flip_horizontal ell) = flip_horizontal <$> Update ell
  ∧ Update (flip_vertical ell) = flip_vertical <$> Update ell.
Proof. apply (Update_flip ell); [exact ell_wf | simpl; lia | simpl; lia]. Defined.

(** X8. [Update] treats rows and columns alike: the step of the transposed
    grid is the transpose of the step. *)
Theorem Update_transpose (gi : Grid) :
  Grid_wf gi → 2 ≤ width gi → 2 ≤ height gi →
  Update (transpose gi) = transpose <$> Update gi.
Proof.
  intros Hwf Hw Hh. pose proof Hwf as (Hlen & Hwmax & Hhmax).
  set (W := width gi - 2). set (H := height gi - 2).
  assert (width gi = W + 2) as HW by (unfold W; lia).
  assert (height gi = H + 2) as HH by (unfold H; lia).
  assert (∀ y x, in_grid (transpose gi) y x →
            alive (transpose gi) y x = alive gi x y) as Hal.
  { intros y x [Hy Hx]. unfold transpose.
    rewrite Grid_tabulate_alive by done. apply alive_cell. }
  destruct (Update_symmetry W H H W gi (transpose gi) (λ y x, (x, y)))
    as (g1 & g2 & -> & -> & Hwf1 & Hwf2 & Hw1 & Hh1 & Hw2 & Hh2 & Hcells);
    try done.
  - by apply Grid_tabulate_wf.
  - intros y x [Hy Hx]. unfold in_grid in *. simpl in *. lia.
  - intros y x [Hy Hx]. unfold logical. simpl in *. lia.
  - intros y x [Hy Hx]. cbn [fst snd].
    unfold transpose, in_grid in Hal. cbn [width height Grid_tabulate] in Hal.
    neighbour_sum Hal. lia.
  - simpl. f_equal.
    change (width g2 = height gi) in Hw2. change (height g2 = width gi) in Hh2.
    apply grid_ext; [by etrans|by etrans|apply Hwf2|apply Grid_tabulate_length|].
    intros y x Hin. pose proof Hin as [Hy Hx].
    rewrite Hcells by (unfold in_grid in *; simpl; lia). cbn [fst snd].
    unfold transpose. rewrite Grid_tabulate_get by lia.
    unfold cell.
    destruct (grid_get_is_Some g1 x y) as [c ->];
      [apply Hwf1|unfold in_grid; lia|done].
Qed.

Lemma Update_transpose_witness : Update (transpose ell) = transpose <$> Update ell.
Proof. apply (Update_transpose ell); [exact ell_wf | simpl; lia | simpl; lia]. Defined.

(** ** FillRandom: the whole result *)

Lemma in_grid_cases (W H : nat) (gr : Grid) (y x : nat) :
  width gr = W + 2 → height gr = H + 2 → in_grid gr y x →
  logical W H y x ∨ padding W H y x.
Proof.
  intros Hw Hh [Hy Hx]. destruct (decide (logical W H y x)); [by left|].
  right. unfold padding. split; [lia|]. split; [lia|done].
Qed.

Lemma FillRandom_closed (W H : nat) (gi : Grid) (rn : Rng) :
  Grid_wf gi → width gi = W + 2 → height gi = H + 2 →
  FillRandom (gi, rn)
  = Some (Grid_tabulate (W + 2) (H + 2) (random_cell W H rn),
          mkRng (draws rn) (drawn rn + H * W)).
Proof.
  intros Hwf Hw Hh.
  destruct (FillRandom_spec W H gi rn Hwf Hw Hh)
    as (gr' & [dr n] & -> & Hwf' & Hw' & Hh' & Hlog & Hpad & Hdraws & Hdrawn).
  simpl in Hdraws, Hdrawn. subst dr n. do 2 f_equal.
  apply grid_ext; [done|done|apply Hwf'|apply Grid_tabulate_length|].
  intros y x Hin. pose proof Hin as [Hy Hx]. rewrite Hw' in Hx. rewrite Hh' in Hy.
  rewrite Grid_tabulate_get by done. unfold random_cell.
  destruct (in_grid_cases W H gr' y x Hw' Hh' Hin) as [Hl|Hp].
  - rewrite decide_True by done. by apply Hlog.
  - rewrite decide_False by apply Hp. by apply Hpad.
Qed.

(** X9. [FillRandom] overwrites the whole grid: its result is a function
    of the grid's dimensions and of the generator only. Every logical cell
    holds its draw, every other cell is [{ 0, 0 }], and the generator has
    advanced by one draw per logical cell, whatever the grid held before. *)
Theorem FillRandom_overwrites (W H : nat) (ga gb : Grid) (rn : Rng) :
  Grid_wf ga → width ga = W + 2 → height ga = H + 2 →
  Grid_wf gb → width gb = W + 2 → height gb = H + 2 →
  FillRandom (ga, rn) = FillRandom (gb, rn)
  ∧ FillRandom (ga, rn)
    = Some (Grid_tabulate (W + 2) (H + 2) (random_cell W H rn),
            mkRng (draws rn) (drawn rn + H * W)).
Proof.
  intros Hwfa Hwa Hha Hwfb Hwb Hhb.
  rewrite (FillRandom_closed W H ga rn), (FillRandom_closed W H gb rn) by done.
  done.
Qed.

Lemma FillRandom_overwrites_witness :
  FillRandom (blinker_row, rng_alternating) = FillRandom (block_corner, rng_alternating)
  ∧ FillRandom (blinker_row, rng_alternating)
    = Some (Grid_tabulate (3 + 2) (3 + 2) (random_cell 3 3 rng_alternating),
            mkRng (draws rng_alternating) (drawn rng_alternating + 3 * 3)).
Proof.
  apply (FillRandom_overwrites 3 3 blinker_row block_corner rng_alternating);
    [exact blinker_row_wf | reflexivity | reflexivity
    | exact block_corner_wf | reflexivity | reflexivity].
Defined.

(** X10. Two calls of [FillRandom] in a row draw from consecutive parts of
    the generator's sequence: the second call keeps nothing of the first
    and stores in each logical cell the draw that comes [H * W] draws after
    the one the first call stored there. *)
Theorem FillRandom_twice (W H : nat) (gi : Grid) (rn : Rng) :
  Grid_wf gi → width gi = W + 2 → height gi = H + 2 →
  ∃ g1 r1 g2 r2,
    FillRandom (gi, rn) = Some (g1, r1) ∧ FillRandom (g1, r1) = Some (g2, r2)
    ∧ (∀ y x, logical W H y x →
         grid_get g1 y x
         = Some (mkCell false (draws rn (drawn rn + draw_index W y x)))
         ∧ grid_get g2 y x
           = Some (mkCell false (draws rn (drawn rn + H * W + draw_index W y x)))
         ∧ draw_index W y x < H * W)
    ∧ draws r2 = draws rn ∧ drawn r2 = drawn rn + 2 * (H * W).
Proof.
  intros Hwf Hw Hh.
  destruct (FillRandom_spec W H gi rn Hwf Hw Hh)
    as (g1 & r1 & Hfill1 & Hwf1 & Hw1 & Hh1 & Hlog1 & _ & Hdraws1 & Hdrawn1).
  destruct (FillRandom_spec W H g1 r1 Hwf1 Hw1 Hh1)
    as (g2 & r2 & Hfill2 & _ & _ & _ & Hlog2 & _ & Hdraws2 & Hdrawn2).
  exists g1, r1, g2, r2. do 2 (split; [done|]). split; [|split; [congruence|lia]].
  intros y x Hl. split; [by apply Hlog1|]. split.
  - rewrite (Hlog2 y x Hl), Hdraws1, Hdrawn1. done.
  - destruct Hl as [Hy Hx]. unfold draw_index.
    replace H with (S (H - 1)) at 2 by lia. apply flat_lt; lia.
Qed.

Lemma FillRandom_twice_witness :
  ∃ g1 r1 g2 r2,
    FillRandom (blinker_row, rng_alternating) = Some (g1, r1)
    ∧ FillRandom (g1, r1) = Some (g2, r2)
    ∧ (∀ y x, logical 3 3 y x →
         grid_get g1 y x
         = Some (mkCell false
                   (draws rng_alternating (drawn rng_alternating + draw_index 3 y x)))
         ∧ grid_get g2 y x
           = Some (mkCell false
                     (draws rng_alternating
                        (drawn rng_alternating + 3 * 3 + draw_index 3 y x)))
         ∧ draw_index 3 y x < 3 * 3)
    ∧ draws r2 = draws rng_alternating
    ∧ drawn r2 = drawn rng_alternating + 2 * (3 * 3).
Proof.
  apply (FillRandom_twice 3 3 blinker_row rng_alternating);
    [exact blinker_row_wf | reflexivity | reflexivity].
Defined.

(** ** CopyToImage: the whole result *)

Lemma CopyToImage_closed (gr : Grid) (img : Image) :
  length (data gr) = height gr * width gr → Image_wf img →
  image_width img + 1 ≤ width gr → image_height img + 1 ≤ height gr →
  CopyToImage gr img
  = Some (mkImage (image_width img) (image_height img)
            (projection gr (image_width img) (image_height img))).
Proof.
  intros Hlen Hwf Hw Hh.
  destruct (CopyToImage_spec gr img Hlen Hwf Hw Hh)
    as ([iw ih px] & -> & Hwf' & Hw' & Hh' & Hpix).
  simpl in Hw', Hh'. subst iw ih. do 2 f_equal.
  apply (image_pixels_eq gr _ Hwf'). exact Hpix.
Qed.

(** X11. The image [CopyToImage] returns depends only on the [current]
    bits of the logical cells: neither the image's former pixels, nor the
    [previous] bits, nor the cells of the border ring show in it. Calling it
    again on its result changes nothing. *)
Theorem CopyToImage_depends (W H : nat) (ga gb : Grid) (ia ib : Image) :
  Grid_wf ga → width ga = W + 2 → height ga = H + 2 →
  Grid_wf gb → width gb = W + 2 → height gb = H + 2 →
  Image_wf ia → image_width ia = W → image_height ia = H →
  Image_wf ib → image_width ib = W → image_height ib = H →
  (∀ y x, logical W H y x → alive ga y x = alive gb y x) →
  CopyToImage ga ia = CopyToImage gb ib
  ∧ ∃ img', CopyToImage ga ia = Some img' ∧ CopyToImage ga img' = Some img'.
Proof.
  intros (Hla & _) Hwa Hha (Hlb & _) Hwb Hhb Hwfa Hiwa Hiha Hwfb Hiwb Hihb Hagree.
  rewrite (CopyToImage_closed ga ia), (CopyToImage_closed gb ib) by (done || lia).
  rewrite Hiwa, Hiha, Hiwb, Hihb. split.
  - do 2 f_equal. unfold projection. apply list_fmap_ext.
    intros i [y x] Hi. apply list_elem_of_lookup_2, elem_of_coords in Hi as [Hy Hx].
    apply elem_of_step in Hy, Hx. unfold pixel_of. simpl.
    rewrite Hagree; [done|unfold logical; lia].
  - eexists. split; [done|].
    rewrite CopyToImage_closed; [done|done| |simpl; lia|simpl; lia].
    unfold Image_wf, projection. simpl.
    unfold step. by rewrite length_fmap, coords_length, !length_seq.
Qed.

Lemma blinker_top_noisy_wf : Grid_wf blinker_top_noisy.
Proof. repeat split. Qed.

Lemma CopyToImage_depends_witness :
  CopyToImage blinker_top (Image_new 3 3 colorDeadCell)
  = CopyToImage blinker_top_noisy (Image_new 3 3 colorLivingCell)
  ∧ ∃ img', CopyToImage blinker_top (Image_new 3 3 colorDeadCell) = Some img'
            ∧ CopyToImage blinker_top img' = Some img'.
Proof.
  apply (CopyToImage_depends 3 3 blinker_top blinker_top_noisy
           (Image_new 3 3 colorDeadCell) (Image_new 3 3 colorLivingCell));
    [exact blinker_top_wf | reflexivity | reflexivity
    | exact blinker_top_noisy_wf | reflexivity | reflexivity
    | reflexivity | reflexivity | reflexivity
    | reflexivity | reflexivity | reflexivity |].
  intros y x [Hy Hx].
  assert (y = 1 ∨ y = 2 ∨ y = 3) as [->|[->| ->]] by lia;
    (assert (x = 1 ∨ x = 2 ∨ x = 3) as [->|[->| ->]] by lia); reflexivity.
Defined.

(** ** The frame loop keeps the image in step with the grid *)

Lemma frame_random_flag (inp : Input) (s s' : State) :
  frame_random inp s = Some s' → s' = s ∨ doesUpdate s' = true.
Proof.
  unfold frame_random. destruct (buttonRandom inp); [|intros [= <-]; by left].
  destruct (FillRandom (grid s, rng s)); simpl; [|done]. intros [= <-]. by right.
Qed.

Lemma frame_clear_flag (inp : Input) (s s' : State) :
  frame_clear inp s = Some s' → s' = s ∨ doesUpdate s' = true.
Proof.
  unfold frame_clear. destruct (buttonClear inp); intros [= <-]; [by right|by left].
Qed.

Lemma frame_update_flag (inp : Input) (s s' : State) :
  frame_update inp s = Some s' → s' = s ∨ doesUpdate s' = true.
Proof.
  unfold frame_update. destruct (buttonUpdate inp); [|intros [= <-]; by left].
  destruct (Update (grid s)); simpl; [|done]. intros [= <-]. by right.
Qed.

Lemma frame_edit_flag (inp : Input) (s s' : State) :
  frame_edit inp s = Some s' → s' = s ∨ doesUpdate s' = true.
Proof.
  unfold frame_edit. destruct (Rect_mouseOver 0 0 599 (cursorPos inp));
    [|intros [= <-]; by left].
  destruct (mouseL inp).
  { destruct (grid_set_current_at _ _ true); simpl; [|done]. intros [= <-]. by right. }
  destruct (mouseR inp); [|intros [= <-]; by left].
  destruct (grid_set_current_at _ _ false); simpl; [|done]. intros [= <-]. by right.
Qed.

Lemma Image_new_get (w h : nat) (c : Color) (y x : nat) :
  y < h → x < w → image_get (Image_new w h c) y x = Some c.
Proof.
  intros Hy Hx. unfold image_get, Image_new. cbn [pixels image_width].
  apply lookup_replicate_2. by apply flat_lt.
Qed.

Lemma Main_init_in_sync (r0 : Rng) : in_sync (Main_init r0).
Proof.
  unfold in_sync, Main_init. cbn [grid image].
  apply (image_pixels_eq _ (Image_new fieldWidth fieldHeight colorDeadCell)).
  { apply Image_new_wf. }
  intros y x Hy Hx. change (y < fieldHeight) in Hy. change (x < fieldWidth) in Hx.
  rewrite Image_new_get by done. unfold pixel_of, alive.
  by rewrite Grid_new_get by lia.
Qed.

Lemma frame_render_in_sync (s : State) :
  Main_inv s → (doesUpdate s = false → in_sync s) →
  ∃ s', frame_render s = Some s' ∧ Main_inv s'
        ∧ doesUpdate s' = false ∧ in_sync s' ∧ grid s' = grid s ∧ rng s' = rng s.
Proof.
  intros Hinv Hsync. pose proof Hinv as (Hwf & Hw & Hh & Hpad & Hiwf & Hiw & Hih).
  unfold frame_render. destruct (doesUpdate s) eqn:Hflag.
  - rewrite CopyToImage_closed; [|apply Hwf|done|lia|lia]. simpl.
    eexists. split; [done|]. split.
    { unfold Main_inv. simpl. do 4 (split; [done|]). split; [|done].
      unfold Image_wf, projection, step. simpl.
      by rewrite length_fmap, coords_length, !length_seq. }
    split; [done|]. split; [|done].
    unfold in_sync. simpl. by rewrite Hiw, Hih.
  - exists s. split; [done|]. split; [done|]. split; [done|]. split; [|done].
    by apply Hsync.
Qed.

(** Each of the four phases that may change the grid keeps [Main_inv] and,
    unless it raises [doesUpdate], leaves the state as it was. *)
Lemma frame_phases (inp : Input) (s : State) :
  Main_inv s → (doesUpdate s = false → in_sync s) →
  ∃ s4, (s1 ← frame_random inp s; s2 ← frame_clear inp s1;
         s3 ← frame_update inp s2; frame_edit inp s3) = Some s4
        ∧ Main_inv s4 ∧ (doesUpdate s4 = false → in_sync s4).
Proof.
  intros Hinv Hsync.
  assert (∀ s s', s' = s ∨ doesUpdate s' = true →
            (doesUpdate s = false → in_sync s) →
            doesUpdate s' = false → in_sync s') as Hkeep.
  { intros s0 s0' [->|Hflag] Hs Hf; [by apply Hs|congruence]. }
  destruct (frame_random_inv inp s Hinv) as (s1 & H1 & Hinv1). rewrite H1. simpl.
  pose proof (Hkeep s s1 (frame_random_flag inp s s1 H1) Hsync) as Hsync1.
  destruct (frame_clear_inv inp s1 Hinv1) as (s2 & H2 & Hinv2). rewrite H2. simpl.
  pose proof (Hkeep s1 s2 (frame_clear_flag inp s1 s2 H2) Hsync1) as Hsync2.
  destruct (frame_update_inv inp s2 Hinv2) as (s3 & H3 & Hinv3). rewrite H3. simpl.
  pose proof (Hkeep s2 s3 (frame_update_flag inp s2 s3 H3) Hsync2) as Hsync3.
  destruct (frame_edit_inv inp s3 Hinv3) as (s4 & H4 & Hinv4).
  pose proof (Hkeep s3 s4 (frame_edit_flag inp s3 s4 H4) Hsync3) as Hsync4.
  by exists s4.
Qed.

Lemma Main_frame_phases (inp : Input) (s : State) :
  Main_frame inp s
  = (s1 ← frame_random inp s; s2 ← frame_clear inp s1;
     s3 ← frame_update inp s2; frame_edit inp s3) ≫= frame_render.
Proof.
  unfold Main_frame. destruct (frame_random inp s) as [s1|]; simpl; [|done].
  destruct (frame_clear inp s1) as [s2|]; simpl; [|done].
  by destruct (frame_update inp s2) as [s3|].
Qed.

(** X12. At the end of every frame the image shows the grid: whenever a
    frame changes the grid it raises [doesUpdate], and the rendering that
    follows rewrites the image from the grid and lowers the flag. This
    holds in the initial state and after any sequence of frames. *)
Theorem Main_image_in_sync :
  (∀ r0, doesUpdate (Main_init r0) = false ∧ in_sync (Main_init r0))
  ∧ (∀ inps s, Main_inv s → doesUpdate s = false → in_sync s →
       ∃ s', Main_loop inps s = Some s' ∧ doesUpdate s' = false ∧ in_sync s').
Proof.
  split; [intros r0; split; [done|apply Main_init_in_sync]|].
  intros inps s Hinv Hflag Hsync. unfold Main_loop.
  destruct (foldM_invariant Main_frame
              (λ _ s, Main_inv s ∧ doesUpdate s = false ∧ in_sync s) inps s)
    as (s' & Hloop & _ & Hflag' & Hsync'); [done| |by exists s'].
  intros _ inp _ s0 _ (Hinv0 & Hflag0 & Hsync0).
  rewrite Main_frame_phases.
  destruct (frame_phases inp s0 Hinv0) as (s4 & -> & Hinv4 & Hsync4); [done|].
  simpl. destruct (frame_render_in_sync s4 Hinv4 Hsync4)
    as (s5 & -> & Hinv5 & Hflag5 & Hsync5 & _).
  by exists s5.
Qed.

(** ** The frame loop and the generator *)

Lemma frame_clear_rng (inp : Input) (s s' : State) :
  frame_clear inp s = Some s' → rng s' = rng s.
Proof. unfold frame_clear. by destruct (buttonClear inp); intros [= <-]. Qed.

Lemma frame_update_rng (inp : Input) (s s' : State) :
  frame_update inp s = Some s' → rng s' = rng s.
Proof.
  unfold frame_update. destruct (buttonUpdate inp); [|by intros [= <-]].
  destruct (Update (grid s)); simpl; [|done]. by intros [= <-].
Qed.

Lemma frame_edit_rng (inp : Input) (s s' : State) :
  frame_edit inp s = Some s' → rng s' = rng s.
Proof.
  unfold frame_edit. destruct (Rect_mouseOver 0 0 599 (cursorPos inp));
    [|by intros [= <-]].
  destruct (mouseL inp).
  { destruct (grid_set_current_at _ _ true); simpl; [|done]. by intros [= <-]. }
  destruct (mouseR inp); [|by intros [= <-]].
  destruct (grid_set_current_at _ _ false); simpl; [|done]. by intros [= <-].
Qed.

Lemma frame_render_rng (s s' : State) : frame_render s = Some s' → rng s' = rng s.
Proof.
  unfold frame_render. destruct (doesUpdate s); [|by intros [= <-]].
  destruct (CopyToImage (grid s) (image s)); simpl; [|done]. by intros [= <-].
Qed.

(** X13. Only the random fill consumes the generator: a frame advances it
    by one draw per logical cell ([60 * 60] draws) when the random button is
    pressed and leaves it as it was otherwise, whatever else happens in the
    frame. *)
Theorem Main_frame_rng (inp : Input) (s : State) :
  Main_inv s →
  ∃ s', Main_frame inp s = Some s'
        ∧ draws (rng s') = draws (rng s)
        ∧ drawn (rng s')
          = drawn (rng s) + (if buttonRandom inp then fieldHeight * fieldWidth else 0).
Proof.
  intros Hinv. unfold Main_frame.
  assert (∃ s1, frame_random inp s = Some s1 ∧ Main_inv s1
                ∧ draws (rng s1) = draws (rng s)
                ∧ drawn (rng s1)
                  = drawn (rng s)
                    + (if buttonRandom inp then fieldHeight * fieldWidth else 0))
    as (s1 & -> & Hinv1 & Hdraws & Hdrawn).
  { destruct (frame_random_inv inp s Hinv) as (s1 & H1 & Hinv1).
    exists s1. do 2 (split; [done|]). revert H1. unfold frame_random.
    destruct (buttonRandom inp); [|intros [= <-]; split; [done|lia]].
    destruct Hinv as (Hwf & Hw & Hh & _).
    destruct (FillRandom_spec fieldWidth fieldHeight (grid s) (rng s) Hwf Hw Hh)
      as (gr' & rn' & -> & _ & _ & _ & _ & _ & Hdraws & Hdrawn).
    simpl. by intros [= <-]. }
  simpl.
  destruct (frame_clear_inv inp s1 Hinv1) as (s2 & H2 & Hinv2). rewrite H2. simpl.
  destruct (frame_update_inv inp s2 Hinv2) as (s3 & H3 & Hinv3). rewrite H3. simpl.
  destruct (frame_edit_inv inp s3 Hinv3) as (s4 & H4 & Hinv4). rewrite H4. simpl.
  destruct (frame_render_inv s4 Hinv4) as (s5 & H5 & _). rewrite H5.
  exists s5. split; [done|].
  rewrite (frame_render_rng s4 s5 H5), (frame_edit_rng inp s3 s4 H4),
    (frame_update_rng inp s2 s3 H3), (frame_clear_rng inp s1 s2 H2).
  done.
Qed.

Lemma Main_frame_rng_witness :
  ∃ s', Main_frame all_buttons (Main_init rng_alternating) = Some s'
        ∧ draws (rng s') = draws (rng (Main_init rng_alternating))
        ∧ drawn (rng s')
          = drawn (rng (Main_init rng_alternating))
            + (if buttonRandom all_buttons then fieldHeight * fieldWidth else 0).
Proof.
  apply (Main_frame_rng all_buttons (Main_init rng_alternating)).
  apply Main_init_inv.
Defined.

(** ** A frame with the clear button *)

Lemma Grid_fill_shape (ga gb : Grid) (c : Cell) :
  width ga = width gb → height ga = height gb →
  length (data ga) = length (data gb) → Grid_fill ga c = Grid_fill gb c.
Proof.
  intros Hw Hh Hlen. unfold Grid_fill. rewrite Hw, Hh. f_equal.
  rewrite !const_fmap with (y := c) by done.
  by rewrite Hlen.
Qed.

(** X14. The clear button wins over the other two: a frame in which it is
    pressed, and in which no mouse button is held over the canvas, ends
    with every cell of the grid [{ 0, 0 }] and every pixel of the image in
    the dead colour, whether or not the random and the step buttons are
    pressed too (the clear comes after the random fill, and a step of the
    cleared grid changes nothing). *)
Theorem Main_frame_clear (inp : Input) (s : State) :
  Main_inv s → buttonClear inp = true →
  Rect_mouseOver 0 0 599 (cursorPos inp) = false
  ∨ (mouseL inp = false ∧ mouseR inp = false) →
  ∃ s', Main_frame inp s = Some s'
        ∧ grid s' = Grid_fill (grid s) dead
        ∧ pixels (image s') = replicate (fieldHeight * fieldWidth) colorDeadCell
        ∧ doesUpdate s' = false.
Proof.
  intros Hinv Hclear Hidle. unfold Main_frame.
  destruct (frame_random_inv inp s Hinv) as (s1 & H1 & Hinv1). rewrite H1. simpl.
  unfold frame_clear. rewrite Hclear. simpl. change (mkCell false false) with dead.
  assert (Grid_fill (grid s1) dead = Grid_fill (grid s) dead) as ->.
  { destruct Hinv as ((Hlen & _) & Hw & Hh & _).
    destruct Hinv1 as ((Hlen1 & _) & Hw1 & Hh1 & _).
    apply Grid_fill_shape; congruence. }
  pose proof Hinv as (Hwf & Hw & Hh & _ & Hiwf & Hiw & Hih).
  assert (∃ s3, frame_update inp
                  (mkState (Grid_fill (grid s) dead) (image s1) (rng s1) true)
                = Some s3
                ∧ grid s3 = Grid_fill (grid s) dead ∧ image s3 = image s1
                ∧ doesUpdate s3 = true) as (s3 & -> & Hg3 & Hi3 & Hf3).
  { unfold frame_update. destruct (buttonUpdate inp); [|by eexists].
    simpl. rewrite Update_cleared by (done || lia). simpl. by eexists. }
  simpl.
  assert (frame_edit inp s3 = Some s3) as ->.
  { unfold frame_edit. destruct Hidle as [->|[-> ->]]; [done|].
    by destruct (Rect_mouseOver 0 0 599 (cursorPos inp)). }
  simpl. unfold frame_render. rewrite Hf3, Hg3, Hi3.
  destruct Hinv1 as (_ & _ & _ & _ & Hiwf1 & Hiw1 & Hih1).
  rewrite CopyToImage_closed;
    [|apply Grid_fill_wf, Hwf|done|simpl; lia|simpl; lia].
  simpl. eexists. split; [done|]. simpl. split; [done|]. split; [|done].
  rewrite Hiw1, Hih1. unfold projection.
  rewrite (const_fmap _ _ colorDeadCell).
  - unfold step. by rewrite coords_length, !length_seq.
  - intros i [y x] _. unfold pixel_of. simpl. by rewrite alive_Grid_fill.
Qed.

Lemma Main_frame_clear_witness :
  ∃ s', Main_frame all_buttons (Main_init rng_alternating) = Some s'
        ∧ grid s' = Grid_fill (grid (Main_init rng_alternating)) dead
        ∧ pixels (image s') = replicate (fieldHeight * fieldWidth) colorDeadCell
        ∧ doesUpdate s' = false.
Proof.
  apply (Main_frame_clear all_buttons (Main_init rng_alternating));
    [apply Main_init_inv | reflexivity | left; reflexivity].
Defined.

(** ** The canvas and the cells *)

Lemma quot_10_block (p k : Z) :
  (0 ≤ p)%Z → (p ÷ 10 + 1 = k ↔ 10 * (k - 1) ≤ p ≤ 10 * (k - 1) + 9)%Z.
Proof.
  intros Hp. rewrite Z.quot_div_nonneg by lia.
  pose proof (Z.div_mod p 10). pose proof (Z.mod_pos_bound p 10). lia.
Qed.

(** X15. The cells the mouse can edit are exactly the logical cells. A
    cursor in the canvas targets the cell whose [10 x 10] screen square
    holds it (the last row and column of squares stop at 598); every
    logical cell is the target of some cursor position in the canvas; and
    with the cursor outside the canvas a frame's edit does nothing,
    whatever buttons are held. *)
Theorem canvas_cells :
  (∀ (px py : Z) (tx ty : nat), (0 ≤ px ≤ 598)%Z → (0 ≤ py ≤ 598)%Z →
     Point_add (Point_div (px, py) 10) (1, 1)%Z = (Z.of_nat tx, Z.of_nat ty)
     ↔ (10 * (Z.of_nat tx - 1) ≤ px ≤ 10 * (Z.of_nat tx - 1) + 9
        ∧ 10 * (Z.of_nat ty - 1) ≤ py ≤ 10 * (Z.of_nat ty - 1) + 9)%Z)
  ∧ (∀ ty tx, logical fieldWidth fieldHeight ty tx →
       ∃ px py, (0 ≤ px ≤ 598)%Z ∧ (0 ≤ py ≤ 598)%Z
         ∧ Point_add (Point_div (px, py) 10) (1, 1)%Z = (Z.of_nat tx, Z.of_nat ty))
  ∧ (∀ inp s,
       ¬ ((0 ≤ (cursorPos inp).1 ≤ 598)%Z ∧ (0 ≤ (cursorPos inp).2 ≤ 598)%Z) →
       frame_edit inp s = Some s).
Proof.
  split; [|split].
  - intros px py tx ty Hpx Hpy. unfold Point_add, Point_div. simpl.
    rewrite <- (quot_10_block px (Z.of_nat tx)), <- (quot_10_block py (Z.of_nat ty))
      by lia.
    split; [by intros [= -> ->]|by intros [-> ->]].
  - intros ty tx [Hy Hx]. unfold fieldWidth, fieldHeight in *.
    exists (10 * (Z.of_nat tx - 1))%Z, (10 * (Z.of_nat ty - 1))%Z.
    split; [lia|]. split; [lia|]. unfold Point_add, Point_div. simpl.
    f_equal; apply quot_10_block; lia.
  - intros inp s Hout. unfold frame_edit.
    destruct (Rect_mouseOver 0 0 599 (cursorPos inp)) eqn:Hover; [|done].
    exfalso. apply Hout. unfold Rect_mouseOver in Hover.
    rewrite !andb_true_iff, !Z.leb_le, !Z.ltb_lt in Hover. lia.
Qed.

(** X16. The square drawn under the cursor marks the cell a click would
    edit: for a cursor in the canvas it is the [10 x 10] square that holds
    the cursor, its corner is ten times the image pixel [(tx - 1, ty - 1)],
    and that pixel is the one [CopyToImage] colours from the targeted cell
    [(tx, ty)]. *)
Theorem highlight_marks_target (inp : Input) (gr : Grid) :
  (0 ≤ (cursorPos inp).1 ≤ 598)%Z → (0 ≤ (cursorPos inp).2 ≤ 598)%Z →
  ∃ tx ty : nat,
    Point_add (Point_div (cursorPos inp) 10) (1, 1)%Z = (Z.of_nat tx, Z.of_nat ty)
    ∧ logical fieldWidth fieldHeight ty tx
    ∧ frame_highlight inp
      = Some ((10 * Z.of_nat (tx - 1), 10 * Z.of_nat (ty - 1))%Z, 10%Z)
    ∧ Rect_mouseOver (10 * Z.of_nat (tx - 1)) (10 * Z.of_nat (ty - 1)) 10
        (cursorPos inp) = true
    ∧ pixel_of gr (ty - 1) (tx - 1)
      = if alive gr ty tx then colorLivingCell else colorDeadCell.
Proof.
  destruct (cursorPos inp) as [px py] eqn:Hcur. simpl. intros Hpx Hpy.
  destruct (canvas_target px py Hpx Hpy) as (Hover & tx & ty & Htarget & Hlog).
  exists tx, ty. do 2 (split; [done|]).
  pose proof Hlog as [Hy Hx]. unfold fieldWidth, fieldHeight in Hy, Hx.
  unfold Point_add, Point_div in Htarget. simpl in Htarget.
  injection Htarget as Htx Hty.
  apply quot_10_block in Htx, Hty; [|lia..].
  assert (px ÷ 10 = Z.of_nat (tx - 1) ∧ py ÷ 10 = Z.of_nat (ty - 1))%Z as [Hqx Hqy].
  { pose proof (proj2 (quot_10_block px (Z.of_nat tx) ltac:(lia)) Htx).
    pose proof (proj2 (quot_10_block py (Z.of_nat ty) ltac:(lia)) Hty). lia. }
  split; [|split].
  - unfold frame_highlight. rewrite Hcur, Hover. unfold Point_mul, Point_div.
    simpl. rewrite Hqx, Hqy. do 3 f_equal; lia.
  - unfold Rect_mouseOver. simpl. rewrite !andb_true_iff, !Z.leb_le, !Z.ltb_lt. lia.
  - unfold pixel_of. by replace (ty - 1 + 1) with ty by lia;
      replace (tx - 1 + 1) with tx by lia.
Qed.

Lemma highlight_marks_target_witness :
  ∃ tx ty : nat,
    Point_add (Point_div (cursorPos click_left) 10) (1, 1)%Z
    = (Z.of_nat tx, Z.of_nat ty)
    ∧ logical fieldWidth fieldHeight ty tx
    ∧ frame_highlight click_left
      = Some ((10 * Z.of_nat (tx - 1), 10 * Z.of_nat (ty - 1))%Z, 10%Z)
    ∧ Rect_mouseOver (10 * Z.of_nat (tx - 1)) (10 * Z.of_nat (ty - 1)) 10
        (cursorPos click_left) = true
    ∧ pixel_of (Grid_new 62 62 dead) (ty - 1) (tx - 1)
      = if alive (Grid_new 62 62 dead) ty tx then colorLivingCell else colorDeadCell.
Proof.
  apply (highlight_marks_target click_left (Grid_new 62 62 dead)); simpl; lia.
Defined.

(** ** Edits, one after the other *)

(** X17. Mouse edits of two logical cells can be made in either order with
    the same result, and of two edits of the same cell the later one
    decides the cell's [current] bit; the [previous] bits are those of the
    grid before the edits. *)
Theorem mouse_edits_compose (gr : Grid) (ty tx ty' tx' : nat) (v v' : bool) :
  Grid_wf gr → width gr = fieldWidth + 2 → height gr = fieldHeight + 2 →
  logical fieldWidth fieldHeight ty tx → logical fieldWidth fieldHeight ty' tx' →
  ∃ g1 g2 g12 g21,
    grid_set_current_at gr (Z.of_nat tx, Z.of_nat ty) v = Some g1
    ∧ grid_set_current_at gr (Z.of_nat tx', Z.of_nat ty') v' = Some g2
    ∧ grid_set_current_at g1 (Z.of_nat tx', Z.of_nat ty') v' = Some g12
    ∧ grid_set_current_at g2 (Z.of_nat tx, Z.of_nat ty) v = Some g21
    ∧ ((ty, tx) ≠ (ty', tx') → g12 = g21)
    ∧ ((ty, tx) = (ty', tx') → g12 = g2).
Proof.
  intros Hwf Hw Hh Hl Hl'.
  destruct (grid_set_current_at_logical gr ty tx v Hwf Hw Hh Hl)
    as (c & g1 & Hc & Hset1 & Hwf1 & Hw1 & Hh1 & Hget1 & Hoth1).
  destruct (grid_set_current_at_logical gr ty' tx' v' Hwf Hw Hh Hl')
    as (c' & g2 & Hc' & Hset2 & Hwf2 & Hw2 & Hh2 & Hget2 & Hoth2).
  rewrite <- Hw1 in Hw. rewrite <- Hh1 in Hh.
  destruct (grid_set_current_at_logical g1 ty' tx' v' Hwf1 Hw Hh Hl')
    as (c1 & g12 & Hc1 & Hset12 & Hwf12 & Hw12 & Hh12 & Hget12 & Hoth12).
  rewrite Hw1, <- Hw2 in Hw. rewrite Hh1, <- Hh2 in Hh.
  destruct (grid_set_current_at_logical g2 ty tx v Hwf2 Hw Hh Hl)
    as (c2 & g21 & Hc2 & Hset21 & Hwf21 & Hw21 & Hh21 & Hget21 & Hoth21).
  exists g1, g2, g12, g21. do 4 (split; [done|]).
  assert (∀ y x, in_grid g12 y x ↔ in_grid gr y x) as Hin12.
  { intros y x. unfold in_grid. by rewrite Hw12, Hh12, Hw1, Hh1. }
  assert (∀ y x, in_grid g1 y x ↔ in_grid gr y x) as Hin1.
  { intros y x. unfold in_grid. by rewrite Hw1, Hh1. }
  assert (∀ y x, in_grid g2 y x ↔ in_grid gr y x) as Hin2.
  { intros y x. unfold in_grid. by rewrite Hw2, Hh2. }
  split.
  - intros Hne.
    apply grid_ext; [congruence|congruence|apply Hwf12|apply Hwf21|].
    intros y x Hin. apply Hin12 in Hin.
    destruct (decide ((y, x) = (ty', tx'))) as [[= -> ->]|Hne'].
    + rewrite Hget12. rewrite Hoth21; [|by apply Hin2|congruence].
      rewrite Hget2. rewrite Hoth1 in Hc1; [|done|congruence]. congruence.
    + rewrite Hoth12; [|by apply Hin1|done].
      destruct (decide ((y, x) = (ty, tx))) as [[= -> ->]|Hne''].
      * rewrite Hget1, Hget21. rewrite Hoth2 in Hc2; [|done|congruence]. congruence.
      * rewrite Hoth1; [|done|done]. rewrite Hoth21; [|by apply Hin2|done].
        by rewrite Hoth2.
  - intros [= <- <-].
    apply grid_ext; [congruence|congruence|apply Hwf12|apply Hwf2|].
    intros y x Hin. apply Hin12 in Hin.
    destruct (decide ((y, x) = (ty, tx))) as [[= -> ->]|Hne'].
    + rewrite Hget12, Hget2. rewrite Hget1 in Hc1. injection Hc1 as <-. simpl.
      congruence.
    + rewrite Hoth12; [|by apply Hin1|done]. rewrite Hoth1; [|done|done].
      by rewrite Hoth2.
Qed.

Lemma mouse_edits_compose_witness :
  ∃ g1 g2 g12 g21,
    grid_set_current_at (Grid_new 62 62 dead) (Z.of_nat 60, Z.of_nat 1) true = Some g1
    ∧ grid_set_current_at (Grid_new 62 62 dead) (Z.of_nat 4, Z.of_nat 60) false
      = Some g2
    ∧ grid_set_current_at g1 (Z.of_nat 4, Z.of_nat 60) false = Some g12
    ∧ grid_set_current_at g2 (Z.of_nat 60, Z.of_nat 1) true = Some g21
    ∧ ((1, 60) ≠ (60, 4) → g12 = g21)
    ∧ ((1, 60) = (60, 4) → g12 = g2).
Proof.
  apply (mouse_edits_compose (Grid_new 62 62 dead) 1 60 60 4 true false);
    [by apply Grid_new_wf | reflexivity | reflexivity
    | unfold logical, fieldWidth, fieldHeight; lia
    | unfold logical, fieldWidth, fieldHeight; lia].
Defined.

(** ** Grids without a field, images without pixels *)

Lemma coords_nil_r (ys : list nat) : coords ys [] = [].
Proof. induction ys as [|y ys IH]; [done|]. by rewrite coords_cons, IH. Qed.

Lemma coords_empty (w h : nat) :
  w = 2 ∨ h = 2 → coords (Range 1 (h - 2)) (Range 1 (w - 2)) = [].
Proof. intros [->| ->]; [apply coords_nil_r|done]. Qed.

(** X18. On a grid that is all border (2 columns or 2 rows, so no logical
    cell) the nested loops do nothing: [Update] only copies each [current]
    bit to [previous], and [FillRandom] only clears the grid and draws
    nothing from the generator. *)
Theorem no_field (gi : Grid) (rn : Rng) :
  Grid_wf gi → 2 ≤ width gi → 2 ≤ height gi → width gi = 2 ∨ height gi = 2 →
  Update gi = Some (mkGrid (width gi) (height gi) (snapshot <$> data gi))
  ∧ FillRandom (gi, rn) = Some (Grid_fill gi dead, rn).
Proof.
  intros (Hlen & Hwmax & Hhmax) Hw Hh Hnone. split.
  - unfold Update.
    rewrite (foldM_nested Update_cell (λ gr, Range 1 (size_sub (width gr) 2))).
    + simpl. rewrite !size_sub_small by lia. by rewrite coords_empty.
    + intros y x gr gr1 Hstep. f_equal. f_equal. by eapply Update_cell_width.
  - unfold FillRandom.
    rewrite (foldM_nested FillRandom_cell (λ s, Range 1 (size_sub (width s.1) 2))).
    + simpl. rewrite !size_sub_small by lia. by rewrite coords_empty.
    + intros y x s s' Hstep. f_equal. f_equal. by eapply FillRandom_cell_width.
Qed.

Lemma no_field_witness :
  Update (Grid_new 2 3 (mkCell false true))
  = Some (mkGrid (width (Grid_new 2 3 (mkCell false true)))
            (height (Grid_new 2 3 (mkCell false true)))
            (snapshot <$> data (Grid_new 2 3 (mkCell false true))))
  ∧ FillRandom (Grid_new 2 3 (mkCell false true), rng_alternating)
    = Some (Grid_fill (Grid_new 2 3 (mkCell false true)) dead, rng_alternating).
Proof.
  apply (no_field (Grid_new 2 3 (mkCell false true)) rng_alternating);
    [repeat split | simpl; lia | simpl; lia | left; reflexivity].
Defined.

Lemma Main_image_in_sync_witness :
  ∃ s', Main_loop [all_buttons; click_left; click_right] (Main_init rng_alternating)
        = Some s'
        ∧ doesUpdate s' = false ∧ in_sync s'.
Proof.
  apply (proj2 Main_image_in_sync);
    [apply Main_init_inv | reflexivity | apply Main_init_in_sync].
Defined.
